(** * Splitter: the ledger, the balance cache and the expense endpoint

    A shallow embedding of the Go packages [ledger], [database], [cache] and
    [api] of the splitter service, and the properties of them that its
    specification states.

    Conventions of the embedding.
    - Go [int] values (user and expense identifiers) are [Z]; [len] of a
      slice is a [nat], converted where the source converts it.
    - Monetary amounts are [float64] in the source.  They are embedded as
      canonical rationals [Qc]: every property below is a property of the
      exact, rational reading of the arithmetic.
    - A slice is a [list]; a [nil] slice and an empty slice are both [[]].
    - A Go [map] is a [gmap].  Reading a missing key yields the zero value,
      written [default] here.  Go iterates over a map in an unspecified
      order: the order is an explicit argument of the one function that
      ranges over a map, constrained only to enumerate the map.
    - State is passed explicitly.  The database and Redis are taken to be
      reachable: the panics of the source on a failed connection, query or
      encoding are not part of the embedding. *)

From Stdlib Require Import ZArith QArith Qcanon.
From Stdlib Require Qcabs.
From stdpp Require Import gmap strings list fin_maps pretty.

Local Open Scope Z_scope.

(** ** Package [ledger] *)

Record Expense := {
  ExpenseID : Z;         (* Id of the expense *)
  OwnerID : Z;           (* User id who paid for the expense *)
  Users : list Z;        (* Slice of users that share the expense *)
  Amount : Qc;           (* Amount the owner paid for *)
  Description : string;  (* Description, set by the owner *)
  CreatedAt : Z          (* The time the expense was incurred *)
}.

Record Debt := {
  Debt_UserID : Z;       (* The owner of the debt *)
  Debt_Amount : Qc       (* The amount of the debt *)
}.

Record Balance := {
  Balance_Balance : Qc;  (* Amount of the balance *)
  Debit : list Debt;     (* Money this user owes to other users *)
  Credit : list Debt     (* Money other users owe this user *)
}.

#[global] Instance Debt_eq_dec : EqDecision Debt.
Proof. solve_decision. Defined.

#[global] Instance Balance_eq_dec : EqDecision Balance.
Proof. solve_decision. Defined.

#[global] Instance Expense_eq_dec : EqDecision Expense.
Proof. solve_decision. Defined.

(** The zero value of [Balance] (what reading a missing map key returns). *)
Definition zeroBalance : Balance :=
  {| Balance_Balance := 0%Qc; Debit := []; Credit := [] |}.

(** The double map of money owed to other users. *)
Abbreviation DebtsMap := (gmap Z (gmap Z Qc)).

(** [float64(n)] for an [int] [n]. *)
Definition float64 (n : Z) : Qc := Qc_of_Z n.

(** The loop that sets [userTookPart]. *)
Definition userTookPart (users : list Z) (userID : Z) : bool :=
  fold_left (fun took expenseUserID =>
               if bool_decide (expenseUserID = userID) then true else took)
            users false.

(** [if debts[k] == nil { debts[k] = make(map[int]float64) }] *)
Definition allocate (k : Z) (debts : DebtsMap) : DebtsMap :=
  match debts !! k with
  | None => <[k := ∅]> debts
  | Some _ => debts
  end.

(** [debts[a][b] += x] *)
Definition incr (a b : Z) (x : Qc) (debts : DebtsMap) : DebtsMap :=
  let row := default ∅ (debts !! a) in
  <[a := <[b := (default 0 (row !! b) + x)%Qc]> row]> debts.

(** [debts[a][b] -= x] *)
Definition decr (a b : Z) (x : Qc) (debts : DebtsMap) : DebtsMap :=
  let row := default ∅ (debts !! a) in
  <[a := <[b := (default 0 (row !! b) - x)%Qc]> row]> debts.

(** The body of the loop that amends the debts map for one expense. *)
Definition amend (ownerID : Z) (perPersonAmount : Qc)
    (debts : DebtsMap) (expenseUserID : Z) : DebtsMap :=
  if bool_decide (expenseUserID = ownerID) then debts
  else
    let debts := allocate expenseUserID debts in
    let debts := allocate ownerID debts in
    let debts := incr expenseUserID ownerID perPersonAmount debts in
    decr ownerID expenseUserID perPersonAmount debts.

(** The change of the subject's own balance caused by an expense the subject
    took part in. *)
Definition delta (expense : Expense) (userID : Z) : Qc :=
  let owned := bool_decide (OwnerID expense = userID) in
  let l := Z.of_nat (length (Users expense)) in
  let perPersonAmount := (Amount expense / float64 l)%Qc in
  if owned then (float64 (l - 1) * perPersonAmount)%Qc
  else (- perPersonAmount)%Qc.

(** The body of the loop over all expenses, on the pair of the running
    balance and the debts map. *)
Definition processExpense (userID : Z)
    (st : Qc * DebtsMap) (expense : Expense) : Qc * DebtsMap :=
  if negb (userTookPart (Users expense) userID) then st
  else
    let l := Z.of_nat (length (Users expense)) in
    let perPersonAmount := (Amount expense / float64 l)%Qc in
    ((st.1 + delta expense userID)%Qc,
     fold_left (amend (OwnerID expense) perPersonAmount) (Users expense) st.2).

(** The body of the loop that makes the final debit and credit slices. *)
Definition splitDebt (acc : list Debt * list Debt) (entry : Z * Qc)
    : list Debt * list Debt :=
  if decide (0 < entry.2)%Qc
  then (acc.1 ++ [{| Debt_UserID := entry.1; Debt_Amount := entry.2 |}], acc.2)
  else (acc.1, acc.2 ++ [{| Debt_UserID := entry.1; Debt_Amount := (- entry.2)%Qc |}]).

(** An iteration order for [range] over a [map[int]float64]. *)
Abbreviation RangeOrder := (gmap Z Qc → list (Z * Qc)).

Definition rangeOrder_ok (order : RangeOrder) : Prop :=
  ∀ m, order m ≡ₚ map_to_list m.

(** The state of the expenses loop when it ends. *)
Definition accumulate (expenses : list Expense) (userID : Z) : Qc * DebtsMap :=
  fold_left (processExpense userID) expenses (0%Qc, ∅).

(** [debts[userID]] after the expenses loop. *)
Definition userDebts (expenses : list Expense) (userID : Z) : gmap Z Qc :=
  default ∅ ((accumulate expenses userID).2 !! userID).

Definition CalculateBalance (order : RangeOrder)
    (expenses : list Expense) (userID : Z) : Balance :=
  let balance := (accumulate expenses userID).1 in
  let dc := fold_left splitDebt (order (userDebts expenses userID)) ([], []) in
  {| Balance_Balance := balance; Debit := dc.1; Credit := dc.2 |}.

(** *** The scenarios of [TestCalculateBalance] *)

Definition meal : Expense :=
  {| ExpenseID := 1; OwnerID := 1; Users := [1; 2; 3]; Amount := float64 42;
     Description := ""; CreatedAt := 0 |}.

Definition coffee : Expense :=
  {| ExpenseID := 1; OwnerID := 2; Users := [1; 2]; Amount := float64 8;
     Description := ""; CreatedAt := 0 |}.

Definition mkDebt (u : Z) (a : Qc) : Debt :=
  {| Debt_UserID := u; Debt_Amount := a |}.

(** An expense that lists one of the other users twice. *)
Definition sharedTwice : Expense :=
  {| ExpenseID := 1; OwnerID := 1; Users := [1; 2; 2]; Amount := float64 3;
     Description := ""; CreatedAt := 0 |}.

(** Two rounds of the same price between two users, each paying one. *)
Definition roundOne : Expense :=
  {| ExpenseID := 1; OwnerID := 1; Users := [1; 2]; Amount := float64 8;
     Description := ""; CreatedAt := 0 |}.

Definition roundTwo : Expense :=
  {| ExpenseID := 2; OwnerID := 2; Users := [1; 2]; Amount := float64 8;
     Description := ""; CreatedAt := 0 |}.

(** ** Package [database] *)

(** The [Database] interface with the two methods of its [Handle] that the
    ledger path calls; the state of the store is passed explicitly. *)
Class Database (D : Type) := {
  CreateExpense : Expense → D → D;     (* Create an expense entry *)
  GetExpenses : Z → D → list Expense   (* Get a slice of all expenses *)
}.

(** *** The in-memory database *)

Record userWithPassword := {
  ID : Z;
  Email : string;
  Password : string
}.

Record InMemoryDatabase := {
  users : list userWithPassword;
  expenses : list Expense
}.

Definition NewInMemoryDatabase : InMemoryDatabase :=
  {| users := []; expenses := [] |}.

(** [InMemoryHandle.CreateExpense] *)
Definition InMemoryHandle_CreateExpense (expense : Expense)
    (db : InMemoryDatabase) : InMemoryDatabase :=
  let expense :=
    {| ExpenseID := ExpenseID expense; OwnerID := OwnerID expense;
       Users := Users expense ++ [OwnerID expense];
       Amount := Amount expense; Description := Description expense;
       CreatedAt := CreatedAt expense |} in
  let expense :=
    {| ExpenseID := Z.of_nat (length (expenses db)) + 1;
       OwnerID := OwnerID expense; Users := Users expense;
       Amount := Amount expense; Description := Description expense;
       CreatedAt := CreatedAt expense |} in
  {| users := users db; expenses := expenses db ++ [expense] |}.

(** [InMemoryHandle.GetExpenses]: the user id is not used. *)
Definition InMemoryHandle_GetExpenses (userID : Z) (db : InMemoryDatabase)
    : list Expense :=
  expenses db.

#[global] Instance InMemoryDatabase_Database : Database InMemoryDatabase := {|
  CreateExpense := InMemoryHandle_CreateExpense;
  GetExpenses := InMemoryHandle_GetExpenses
|}.

(** The store that holds one coffee, paid by user 1 for user 2. *)
Definition oneCoffee : InMemoryDatabase :=
  CreateExpense {| ExpenseID := 0; OwnerID := 1; Users := [2];
                   Amount := float64 8; Description := "Coffee";
                   CreatedAt := 0 |}
                NewInMemoryDatabase.

(** ** Package [cache] *)

(** The [Cache] interface.  The state of a cache is passed explicitly.  Both
    methods take the instant [now] of the call, in nanoseconds as
    [time.Duration] counts them, and [GetBalance] the order in which a
    recomputation ranges over the debts.  [GetBalance] yields [None] where the
    source ends the process. *)
Class Cache (C : Type) := {
  SetBalance : Z → Balance → Z → C → C;
  GetBalance : ∀ {D : Type} `{!Database D},
    RangeOrder → Z → D → Z → C → option (Balance * C)
}.

(** *** The in-memory cache *)

Record InMemoryCache := { entries : gmap Z Balance }.

Definition NewInMemoryCache : InMemoryCache := {| entries := ∅ |}.

Definition InMemoryCache_SetBalance (balance : Balance) (userID : Z)
    (c : InMemoryCache) : InMemoryCache :=
  {| entries := <[userID := balance]> (entries c) |}.

(** [return c.entries[userID]]: a missing key reads as the zero [Balance];
    the database argument is ignored. *)
Definition InMemoryCache_GetBalance (userID : Z) (c : InMemoryCache) : Balance :=
  default zeroBalance (entries c !! userID).

#[global] Instance InMemoryCache_Cache : Cache InMemoryCache := {|
  SetBalance _ balance userID c := InMemoryCache_SetBalance balance userID c;
  GetBalance _ _ _ _ _ userID c := Some (InMemoryCache_GetBalance userID c, c)
|}.

(** *** The Redis cache *)

Definition second : Z := 1000000000.

Definition cacheEntryTTL : Z := 5 * second.

(** [fmt.Sprintf("key-%d", userID)] *)
Definition makeKey (userID : Z) : string := "key-" +:+ pretty userID.

Section redis.
(** The JSON text of a balance, with [json.Marshal] and [json.Unmarshal]
    on it, is left abstract. *)
Context {Json : Type}.
Variable marshal : Balance → Json.
Variable unmarshal : Json → option Balance.

(** The keyspace of the Redis server: under each key a value and the
    instant at which it expires. *)
Record RedisCache := { rdb : gmap string (Json * Z) }.

(** [rdb.Set(ctx, key, value, ttl)] *)
Definition redisSet (now : Z) (key : string) (value : Json) (ttl : Z)
    (r : RedisCache) : RedisCache :=
  {| rdb := <[key := (value, now + ttl)]> (rdb r) |}.

(** [rdb.Get(ctx, key).Result()]: [None] stands for [redis.Nil], the answer
    for a key that is absent or has expired. *)
Definition redisGet (now : Z) (key : string) (r : RedisCache) : option Json :=
  match rdb r !! key with
  | Some (value, expiry) => if bool_decide (now < expiry) then Some value else None
  | None => None
  end.

Definition setBalanceWithRdb (now : Z) (r : RedisCache) (balance : Balance)
    (userID : Z) : RedisCache :=
  let key := makeKey userID in
  let value := marshal balance in
  redisSet now key value cacheEntryTTL r.

Definition RedisCache_SetBalance (now : Z) (balance : Balance) (userID : Z)
    (r : RedisCache) : RedisCache :=
  setBalanceWithRdb now r balance userID.

Definition RedisCache_GetBalance {D : Type} `{!Database D}
    (order : RangeOrder) (now : Z) (db : D) (userID : Z) (r : RedisCache)
    : option (Balance * RedisCache) :=
  let key := makeKey userID in
  match redisGet now key r with
  | None =>
      let expenses := GetExpenses userID db in
      let balance := CalculateBalance order expenses userID in
      let r := setBalanceWithRdb now r balance userID in
      Some (balance, r)
  | Some val =>
      match unmarshal val with
      | None => None (* log.Fatalf *)
      | Some balance => Some (balance, r)
      end
  end.

#[global] Instance RedisCache_Cache : Cache RedisCache := {|
  SetBalance := RedisCache_SetBalance;
  GetBalance _ _ := RedisCache_GetBalance
|}.
End redis.

Arguments RedisCache Json : clear implicits.

(** ** Package [api]: the expenses endpoint *)

(** The decoded body of a request to create an expense; [req_Users] holds
    the [id] of each element of [users]. *)
Record createExpenseRequest := {
  req_Description : string;
  req_Amount : Qc;
  req_CreatedAt : string;
  req_Users : list Z
}.

(** What the handler reads of a request: the method, and the body as
    [json.Decode] returns it ([None] when decoding fails). *)
Record Request := {
  Method : string;
  Body : option createExpenseRequest
}.

(** What the handler writes: the status code (only the first [WriteHeader]
    counts) and the error messages written to the body. *)
Record ResponseWriter := {
  Code : option Z;
  Written : list string
}.

Definition NewRecorder : ResponseWriter := {| Code := None; Written := [] |}.

Definition WriteHeader (code : Z) (w : ResponseWriter) : ResponseWriter :=
  {| Code := match Code w with Some c => Some c | None => Some code end;
     Written := Written w |}.

Definition writeError (w : ResponseWriter) (code : Z) (message : string)
    : ResponseWriter :=
  let w := WriteHeader code w in
  {| Code := Code w; Written := Written w ++ [message] |}.

Definition StatusCreated : Z := 201.
Definition StatusBadRequest : Z := 400.
Definition StatusMethodNotAllowed : Z := 405.

(** The loop that ensures the user ids do not include self and are unique;
    [Some message] when it leaves the handler with an error. *)
Fixpoint checkUsers (userID : Z) (uniqueUsers : gmap Z bool) (us : list Z)
    : option string :=
  match us with
  | [] => None
  | u :: us =>
      if bool_decide (u = userID) then Some "user list must not include self"
      else if decide (is_Some (uniqueUsers !! u))
           then Some "duplicate user in user list"
           else checkUsers userID (<[u := true]> uniqueUsers) us
  end.

Section api.
Context {D C : Type} `{!Database D, !Cache C}.
(** [time.Parse(time.RFC3339, s)] *)
Variable parseRFC3339 : string → option Z.

Record API := {
  db : D;     (* The authoritative data store *)
  cache : C   (* Cache for balances *)
}.

Definition postExpenses (order : RangeOrder) (now : Z)
    (w : ResponseWriter) (r : Request) (userID : Z) (api : API)
    : ResponseWriter * API :=
  let w := if bool_decide (Method r ≠ "POST")
           then writeError w StatusMethodNotAllowed "method not allowed"
           else w in
  match Body r with
  | None => (writeError w StatusBadRequest "unable to decode and parse json", api)
  | Some e =>
    if bool_decide (req_Description e = "")
    then (writeError w StatusBadRequest "description must not be empty", api)
    else if decide (req_Amount e ≤ 0)%Qc
    then (writeError w StatusBadRequest "amount must be positive", api)
    else match parseRFC3339 (req_CreatedAt e) with
    | None => (writeError w StatusBadRequest "unable to parse created_at", api)
    | Some createdAt =>
      if bool_decide (length (req_Users e) < 1)%nat
      then (writeError w StatusBadRequest
              "at least one other user must be included in an expense", api)
      else match checkUsers userID ∅ (req_Users e) with
      | Some message => (writeError w StatusBadRequest message, api)
      | None =>
        let expense :=
          {| ExpenseID := 0; OwnerID := userID;
             Description := req_Description e; Amount := req_Amount e;
             CreatedAt := createdAt; Users := req_Users e |} in
        let db := CreateExpense expense (db api) in
        let expenses := GetExpenses userID db in
        let balance := CalculateBalance order expenses userID in
        let cache := SetBalance now balance userID (cache api) in
        (WriteHeader StatusCreated w, {| db := db; cache := cache |})
      end
    end
  end.

End api.

Arguments API D C : clear implicits.

(** The states the expenses endpoint reaches from an empty in-memory store. *)
Inductive served {C : Type} `{!Cache C} (parseRFC3339 : string → option Z)
    : API InMemoryDatabase C → Prop :=
| served_new (c : C) :
    served parseRFC3339 {| db := NewInMemoryDatabase; cache := c |}
| served_post (order : RangeOrder) (now : Z) (w : ResponseWriter)
    (r : Request) (u : Z) (api : API InMemoryDatabase C) :
    served parseRFC3339 api →
    served parseRFC3339 (postExpenses parseRFC3339 order now w r u api).2.

(** The request of the endpoint test: user 1 buys a meal for users 2 and 3. *)
Definition foodRequest : Request :=
  {| Method := "POST";
     Body := Some {| req_Description := "Food"; req_Amount := float64 42;
                     req_CreatedAt := "2021-01-01T15:04:05Z";
                     req_Users := [2; 3] |} |}.

(** ** Package [database]: the users of the in-memory database *)

(** The errors of the package. *)
Inductive dberror := ErrDuplicate | ErrNotFound | ErrPasswordMismatch.

(** [User] represents a user present in the database. *)
Record User := {
  User_ID : Z;
  User_Email : string
}.

(** The methods of [Handle] on users: [CreateUser] and [AuthenticateUser]
    return a user id and an error ([None] for [nil]). *)
Class UserHandle (D : Type) := {
  CreateUser : string → string → D → (Z * option dberror) * D;
  AuthenticateUser : string → string → D → Z * option dberror;
  GetUsers : D → list User
}.

(** [InMemoryHandle.CreateUser]: the stored record keeps the zero [ID]. *)
Definition InMemoryHandle_CreateUser (email password : string)
    (db : InMemoryDatabase) : (Z * option dberror) * InMemoryDatabase :=
  if existsb (λ u, bool_decide (Email u = email)) (users db)
  then ((0, Some ErrDuplicate), db)
  else
    let userID := Z.of_nat (length (users db)) + 1 in
    ((userID, None),
     {| users := users db ++ [{| ID := 0; Email := email; Password := password |}];
        expenses := expenses db |}).

(** [InMemoryHandle.AuthenticateUser] always returns [1, nil]. *)
Definition InMemoryHandle_AuthenticateUser (email password : string)
    (db : InMemoryDatabase) : Z * option dberror :=
  (1, None).

(** [InMemoryHandle.GetUsers] *)
Definition InMemoryHandle_GetUsers (db : InMemoryDatabase) : list User :=
  imap (λ i u, {| User_ID := Z.of_nat i + 1; User_Email := Email u |}) (users db).

#[global] Instance InMemoryDatabase_UserHandle : UserHandle InMemoryDatabase := {|
  CreateUser := InMemoryHandle_CreateUser;
  AuthenticateUser := InMemoryHandle_AuthenticateUser;
  GetUsers := InMemoryHandle_GetUsers
|}.

(** The states of an in-memory database that starts empty. *)
Inductive populated : InMemoryDatabase → Prop :=
| populated_new : populated NewInMemoryDatabase
| populated_user (email password : string) (db : InMemoryDatabase) :
    populated db → populated (CreateUser email password db).2
| populated_expense (expense : Expense) (db : InMemoryDatabase) :
    populated db → populated (CreateExpense expense db).

(** ** Package [api]: the other handlers *)

Definition StatusOK : Z := 200.
Definition StatusUnauthorized : Z := 401.
Definition StatusConflict : Z := 409.

(** [writeJSON] writes the JSON text of the data; a first write sends the
    status 200 when no status was sent before. *)
Definition writeJSON (w : ResponseWriter) (data : string) : ResponseWriter :=
  {| Code := match Code w with Some c => Some c | None => Some StatusOK end;
     Written := Written w ++ [data] |}.

(** The decoded body of a request to create a user. *)
Record createUserRequest := {
  req_Email : string;
  req_Password : string
}.

(** What the users handlers read of a request. *)
Record UsersRequest := {
  users_Method : string;
  users_Body : option createUserRequest
}.

Section handlers.
Context {D C : Type} `{!Database D, !UserHandle D, !Cache C}.
(** The JSON texts of a balance, of a [userResponse] and of a
    [usersResponse]. *)
Variable encodeBalance : Balance → string.
Variable encodeUser : Z → string → string.
Variable encodeUsers : list User → string.
(** [emailRegex.MatchString] *)
Variable MatchString : string → bool.
(** [jwt.VerifyToken]: the user id of a token that verifies. *)
Variable VerifyToken : string → option Z.

(** [getBalance] returns the balance from the cache; [None] where
    [GetBalance] ends the process. *)
Definition getBalance (order : RangeOrder) (now : Z) (w : ResponseWriter)
    (r : Request) (userID : Z) (api : API D C)
    : option (ResponseWriter * API D C) :=
  let w := if bool_decide (Method r ≠ "GET")
           then writeError w StatusMethodNotAllowed "method not allowed"
           else w in
  match GetBalance order now (db api) userID (cache api) with
  | None => None
  | Some (balance, cache) =>
      Some (writeJSON w (encodeBalance balance),
            {| db := db api; cache := cache |})
  end.

(** [isEmailValid] checks if the email provided passes the required
    structure and length. *)
Definition isEmailValid (e : string) : bool :=
  if bool_decide (String.length e < 3)%nat && bool_decide (254 < String.length e)%nat
  then false
  else MatchString e.

(** [getUsers] returns all users in the database. *)
Definition getUsers (w : ResponseWriter) (api : API D C) : ResponseWriter :=
  let dbUsers := GetUsers (db api) in
  let users :=
    (λ u, {| User_ID := User_ID u; User_Email := User_Email u |}) <$> dbUsers in
  writeJSON w (encodeUsers users).

(** [postUsers] is the user registration endpoint; [None] where it panics on
    an error of the database other than [ErrDuplicate]. *)
Definition postUsers (w : ResponseWriter) (r : UsersRequest) (api : API D C)
    : option (ResponseWriter * API D C) :=
  match users_Body r with
  | None => Some (writeError w StatusBadRequest "unable to decode and parse json", api)
  | Some u =>
    if bool_decide (String.length (req_Password u) < 6)%nat
    then Some (writeError w StatusBadRequest
                 "invalid password: it must be at least 6 characters", api)
    else if negb (isEmailValid (req_Email u))
    then Some (writeError w StatusBadRequest "invalid email address", api)
    else
      let created := CreateUser (req_Email u) (req_Password u) (db api) in
      let id := created.1.1 in
      let api := {| db := created.2; cache := cache api |} in
      match created.1.2 with
      | None => Some (writeJSON w (encodeUser id (req_Email u)), api)
      | Some ErrDuplicate =>
          let w := writeError w StatusConflict
                     "a user with that email already exists" in
          Some (writeJSON w (encodeUser id (req_Email u)), api)
      | Some _ => None
      end
  end.

(** [users] handles the users endpoint for the GET and POST methods (the
    name [users] is the field of the in-memory database here). *)
Definition users_handler (w : ResponseWriter) (r : UsersRequest) (userID : Z)
    (api : API D C) : option (ResponseWriter * API D C) :=
  if bool_decide (users_Method r = "GET") then Some (getUsers w api, api)
  else if bool_decide (users_Method r = "POST") then postUsers w r api
  else Some (writeError w StatusMethodNotAllowed "method not allowed", api).

(** [requireAuth] wraps a handler: the handler runs with the user id of the
    token in the cookie ([None] when the request has no such cookie). *)
Definition requireAuth {Req : Type}
    (pass : ResponseWriter → Req → Z → API D C → option (ResponseWriter * API D C))
    (w : ResponseWriter) (cookie : option string) (r : Req) (api : API D C)
    : option (ResponseWriter * API D C) :=
  match cookie with
  | None => Some (writeError w StatusUnauthorized "authorization failed", api)
  | Some c =>
      match VerifyToken c with
      | None => Some (writeError w StatusUnauthorized "authorization failed", api)
      | Some userID => pass w r userID api
      end
  end.

End handlers.

(** ** Package [ledger]: the helpers of its test *)



(** [makeOweMap] makes a map out of a slice of debts, keyed by the user id. *)
Definition makeOweMap (debts : list Debt) : gmap Z Qc :=
  fold_left (λ m o, <[Debt_UserID o := Debt_Amount o]> m) debts ∅.

(** [debtsEqual]: the lengths of the two maps are compared, then the entries
    of the first map are visited, in the order [order], until one differs
    from what the second map reads under its key. *)
Definition debtsEqual (order : RangeOrder) (a b : list Debt) : bool :=
  let am := makeOweMap a in
  let bm := makeOweMap b in
  if bool_decide (size am ≠ size bm) then false
  else forallb (λ kv, negb (bool_decide (default 0%Qc (bm !! kv.1) ≠ kv.2)))
               (order am).


(** ** Auxiliary notions for the proofs *)

(** The sum of a list of amounts. *)
Definition sumQc (l : list Qc) : Qc := foldr Qcplus 0%Qc l.

(** The sum of the amounts of a list of debts. *)
Definition sumDebts (l : list Debt) : Qc := sumQc (Debt_Amount <$> l).

(** The row of a user in the debts map, empty when it was never allocated. *)
Definition row (debts : DebtsMap) (a : Z) : gmap Z Qc := default ∅ (debts !! a).

(** A posting [(a, b, x)] adds [x] to what [a] owes [b]. *)
Definition post (debts : DebtsMap) (p : Z * Z * Qc) : DebtsMap :=
  incr p.1.1 p.1.2 p.2 debts.

(** The postings one pass of the amending loop makes for one participant. *)
Definition postingsOf (ownerID : Z) (perPersonAmount : Qc) (expenseUserID : Z)
    : list (Z * Z * Qc) :=
  if bool_decide (expenseUserID = ownerID) then []
  else [(expenseUserID, ownerID, perPersonAmount);
        (ownerID, expenseUserID, (- perPersonAmount)%Qc)].

(** The postings of an expense. *)
Definition postings (expense : Expense) : list (Z * Z * Qc) :=
  let l := Z.of_nat (length (Users expense)) in
  let perPersonAmount := (Amount expense / float64 l)%Qc in
  Users expense ≫= postingsOf (OwnerID expense) perPersonAmount.

(** The postings the expenses loop makes for an expense. *)
Definition postingsFor (userID : Z) (expense : Expense) : list (Z * Z * Qc) :=
  if userTookPart (Users expense) userID then postings expense else [].

(** What an expense adds to the balance of a user. *)
Definition contribution (userID : Z) (expense : Expense) : Qc :=
  if userTookPart (Users expense) userID then delta expense userID else 0%Qc.

(** What a list of postings adds to the sum of the row of a user. *)
Definition postedTo (a : Z) (ps : list (Z * Z * Qc)) : Qc :=
  sumQc ((λ p, if bool_decide (p.1.1 = a) then p.2 else 0%Qc) <$> ps).

(** Every user that takes part in an expense of the list, once. *)
Definition participants (expenses : list Expense) : list Z :=
  remove_dups (expenses ≫= Users).

(** The debit and the credit slice made from the entries of a row, in the
    order the entries are visited. *)
Definition debitOf (l : list (Z * Qc)) : list Debt :=
  (λ e, mkDebt e.1 e.2) <$> filter (λ e, 0 < e.2)%Qc l.

Definition creditOf (l : list (Z * Qc)) : list Debt :=
  (λ e, mkDebt e.1 (- e.2)%Qc) <$> filter (λ e, ¬ (0 < e.2)%Qc) l.

(** The sum of the amounts in a row of the debts map. *)
Definition rowsum (m : gmap Z Qc) : Qc := sumQc ((map_to_list m).*2).

(** The amounts that a list of postings adds to what [a] owes [b], in the
    order of the postings. *)
Definition amountsAt (a b : Z) (ps : list (Z * Z * Qc)) : list Qc :=
  snd <$> filter (λ p, p.1.1 = a ∧ p.1.2 = b) ps.



(** Closes a decidable goal on concrete data by evaluating its decision. *)
Ltac by_evaluation := apply (bool_decide_unpack _); by vm_compute.

(** ** Properties of the ledger *)

Lemma userTookPart_fold (us : list Z) (u : Z) (b : bool) :
  fold_left (fun took x => if bool_decide (x = u) then true else took) us b
  = b || bool_decide (u ∈ us).
Proof.
  revert b. induction us as [|x us IH]; intros b; cbn [fold_left].
  - rewrite (bool_decide_eq_false_2 (u ∈ [])) by apply not_elem_of_nil.
    by rewrite orb_false_r.
  - rewrite IH. destruct (decide (x = u)) as [->|Hx].
    + rewrite (bool_decide_eq_true_2 (u = u)) by done.
      rewrite (bool_decide_eq_true_2 (u ∈ u :: us)) by apply list_elem_of_here.
      by rewrite orb_true_r.
    + rewrite (bool_decide_eq_false_2 (x = u)) by done.
      f_equal. apply bool_decide_ext. rewrite elem_of_cons. intuition congruence.
Qed.

Lemma userTookPart_spec (us : list Z) (u : Z) :
  userTookPart us u = bool_decide (u ∈ us).
Proof. unfold userTookPart. by rewrite userTookPart_fold. Qed.

Lemma userTookPart_true (us : list Z) (u : Z) :
  userTookPart us u = true ↔ u ∈ us.
Proof. rewrite userTookPart_spec. apply bool_decide_eq_true. Qed.

Lemma userTookPart_false (us : list Z) (u : Z) :
  userTookPart us u = false ↔ u ∉ us.
Proof. rewrite userTookPart_spec. apply bool_decide_eq_false. Qed.

(** *** Sums *)

Lemma sumQc_cons (x : Qc) (l : list Qc) : sumQc (x :: l) = (x + sumQc l)%Qc.
Proof. reflexivity. Qed.

Lemma sumQc_app (l k : list Qc) : sumQc (l ++ k) = (sumQc l + sumQc k)%Qc.
Proof.
  induction l as [|x l IH]; cbn [app].
  - change (sumQc []) with 0%Qc. ring.
  - rewrite !sumQc_cons, IH. ring.
Qed.

Lemma sumQc_perm (l k : list Qc) : l ≡ₚ k → sumQc l = sumQc k.
Proof.
  induction 1 as [|x l k _ IH|x y l|l k m _ IH1 _ IH2].
  - done.
  - by rewrite !sumQc_cons, IH.
  - rewrite !sumQc_cons. ring.
  - by rewrite IH1.
Qed.

Lemma sumQc_const {A} (l : list A) (c : Qc) :
  sumQc ((λ _, c) <$> l) = (float64 (Z.of_nat (length l)) * c)%Qc.
Proof.
  unfold float64. induction l as [|x l IH].
  - change (Z.of_nat (length [])) with 0. rewrite Z2Qc_inj_0.
    change (sumQc _) with 0%Qc. ring.
  - cbn [length]. rewrite fmap_cons, sumQc_cons, IH.
    rewrite Nat2Z.inj_succ, <- Z.add_1_r, Z2Qc_inj_add, Z2Qc_inj_1. ring.
Qed.

Lemma sumQc_fmap_plus {A} (f g : A → Qc) (l : list A) :
  sumQc ((λ x, f x + g x)%Qc <$> l) = (sumQc (f <$> l) + sumQc (g <$> l))%Qc.
Proof.
  induction l as [|x l IH].
  - change (0 = 0 + 0)%Qc. ring.
  - rewrite !fmap_cons, !sumQc_cons, IH. ring.
Qed.

Lemma sumQc_fmap_opp {A} (f : A → Qc) (l : list A) :
  sumQc ((λ x, - f x)%Qc <$> l) = (- sumQc (f <$> l))%Qc.
Proof.
  induction l as [|x l IH].
  - change (0 = - 0)%Qc. ring.
  - rewrite !fmap_cons, !sumQc_cons, IH. ring.
Qed.

Lemma sumQc_fmap_ext {A} (f g : A → Qc) (l : list A) :
  (∀ x, x ∈ l → f x = g x) → sumQc (f <$> l) = sumQc (g <$> l).
Proof.
  induction l as [|x l IH]; intros Hfg; [done|].
  rewrite !fmap_cons, !sumQc_cons, IH.
  - rewrite Hfg; [done|apply list_elem_of_here].
  - intros y Hy. apply Hfg. by apply list_elem_of_further.
Qed.

(** *** The debts map *)

Lemma decr_incr (a b : Z) (x : Qc) (d : DebtsMap) :
  decr a b x d = incr a b (- x)%Qc d.
Proof. reflexivity. Qed.

Lemma incr_allocate_same (a b : Z) (x : Qc) (d : DebtsMap) :
  incr a b x (allocate a d) = incr a b x d.
Proof.
  unfold incr, allocate. destruct (d !! a) as [m|] eqn:Hd.
  - by rewrite Hd.
  - rewrite lookup_insert_eq. cbn [default from_option id]. by rewrite insert_insert_eq.
Qed.

Lemma incr_allocate_ne (a b c : Z) (x : Qc) (d : DebtsMap) :
  a ≠ c → incr a b x (allocate c d) = allocate c (incr a b x d).
Proof.
  intros Hac. unfold incr, allocate.
  rewrite (lookup_insert_ne _ a c) by done.
  destruct (d !! c) as [m|] eqn:Hd; [done|].
  rewrite lookup_insert_ne by done. by rewrite insert_insert_ne.
Qed.

Lemma amend_post (o : Z) (p : Qc) (d : DebtsMap) (eu : Z) :
  amend o p d eu = fold_left post (postingsOf o p eu) d.
Proof.
  unfold amend, postingsOf. case_bool_decide as Heq; [done|].
  cbn [fold_left]. unfold post. cbn [fst snd].
  rewrite decr_incr, (incr_allocate_ne eu o o) by done.
  by rewrite incr_allocate_same, incr_allocate_same.
Qed.

Lemma fold_amend_post (o : Z) (p : Qc) (us : list Z) (d : DebtsMap) :
  fold_left (amend o p) us d = fold_left post (us ≫= postingsOf o p) d.
Proof.
  revert d. induction us as [|eu us IH]; intros d; [done|].
  rewrite bind_cons, fold_left_app. cbn [fold_left].
  by rewrite IH, amend_post.
Qed.

Lemma lookup_incr (a b c : Z) (x : Qc) (d : DebtsMap) :
  row (incr a b x d) c
  = if decide (a = c) then <[b := (default 0 (row d a !! b) + x)%Qc]> (row d a)
    else row d c.
Proof.
  unfold row, incr. destruct (decide (a = c)) as [->|Hne].
  - by rewrite lookup_insert_eq.
  - by rewrite lookup_insert_ne.
Qed.

Lemma incr_comm (a b a' b' : Z) (x y : Qc) (d : DebtsMap) :
  incr a b x (incr a' b' y d) = incr a' b' y (incr a b x d).
Proof.
  unfold incr. destruct (decide (a = a')) as [<-|Ha].
  - rewrite !lookup_insert_eq. cbn [default from_option id]. rewrite !insert_insert_eq. f_equal.
    destruct (decide (b = b')) as [<-|Hb].
    + rewrite !lookup_insert_eq. cbn [default from_option id]. rewrite !insert_insert_eq.
      f_equal. ring.
    + rewrite !lookup_insert_ne by done. by rewrite insert_insert_ne.
  - rewrite !lookup_insert_ne by done. by rewrite insert_insert_ne.
Qed.

Lemma post_comm (d : DebtsMap) (p q : Z * Z * Qc) :
  post (post d p) q = post (post d q) p.
Proof. unfold post. apply incr_comm. Qed.

Lemma fold_left_comm_perm {A B} (f : A → B → A) (l k : list B) :
  (∀ a x y, f (f a x) y = f (f a y) x) →
  l ≡ₚ k → ∀ a, fold_left f l a = fold_left f k a.
Proof.
  intros Hf. induction 1 as [|x l k _ IH|x y l|l k m _ IH1 _ IH2]; intros a.
  - done.
  - apply IH.
  - cbn [fold_left]. by rewrite Hf.
  - by rewrite IH1.
Qed.

(** *** The expenses loop in closed form *)

Lemma processExpense_eq (u : Z) (st : Qc * DebtsMap) (e : Expense) :
  processExpense u st e
  = ((st.1 + contribution u e)%Qc, fold_left post (postingsFor u e) st.2).
Proof.
  unfold processExpense, contribution, postingsFor, postings.
  destruct (userTookPart (Users e) u); cbn [negb].
  - by rewrite fold_amend_post.
  - destruct st as [b d]. cbn [fst snd fold_left]. f_equal. ring.
Qed.

Lemma fold_processExpense (u : Z) (es : list Expense) (st : Qc * DebtsMap) :
  fold_left (processExpense u) es st
  = ((st.1 + sumQc (contribution u <$> es))%Qc,
     fold_left post (es ≫= postingsFor u) st.2).
Proof.
  revert st. induction es as [|e es IH]; intros st.
  - destruct st as [b d]. cbn. f_equal. change (sumQc []) with 0%Qc. ring.
  - cbn [fold_left]. rewrite IH, processExpense_eq. cbn [fst snd].
    rewrite fmap_cons, sumQc_cons, bind_cons, fold_left_app. f_equal. ring.
Qed.

Lemma accumulate_balance (es : list Expense) (u : Z) :
  (accumulate es u).1 = sumQc (contribution u <$> es).
Proof. unfold accumulate. rewrite fold_processExpense. cbn [fst]. ring. Qed.

Lemma accumulate_debts (es : list Expense) (u : Z) :
  (accumulate es u).2 = fold_left post (es ≫= postingsFor u) ∅.
Proof. unfold accumulate. by rewrite fold_processExpense. Qed.

(** *** The final debit and credit slices *)

Lemma fold_splitDebt (l : list (Z * Qc)) (acc : list Debt * list Debt) :
  fold_left splitDebt l acc = (acc.1 ++ debitOf l, acc.2 ++ creditOf l).
Proof.
  revert acc. induction l as [|e l IH]; intros [d c].
  - cbn. by rewrite !app_nil_r.
  - cbn [fold_left]. rewrite IH. unfold splitDebt, debitOf, creditOf.
    rewrite !filter_cons. cbn [fst snd].
    destruct (decide (0 < e.2)%Qc) as [Hpos|Hneg].
    + rewrite decide_False by tauto. cbn [fst snd].
      by rewrite fmap_cons, <- app_assoc.
    + cbn [fst snd]. rewrite decide_True by done.
      by rewrite fmap_cons, <- app_assoc.
Qed.

Lemma CalculateBalance_Balance (order : RangeOrder) (es : list Expense) (u : Z) :
  Balance_Balance (CalculateBalance order es u) = sumQc (contribution u <$> es).
Proof. unfold CalculateBalance. cbn [Balance_Balance]. apply accumulate_balance. Qed.

Lemma CalculateBalance_Debit (order : RangeOrder) (es : list Expense) (u : Z) :
  Debit (CalculateBalance order es u) = debitOf (order (userDebts es u)).
Proof. unfold CalculateBalance. cbn [Debit]. by rewrite fold_splitDebt. Qed.

Lemma CalculateBalance_Credit (order : RangeOrder) (es : list Expense) (u : Z) :
  Credit (CalculateBalance order es u) = creditOf (order (userDebts es u)).
Proof. unfold CalculateBalance. cbn [Credit]. by rewrite fold_splitDebt. Qed.

Lemma debitOf_perm (l k : list (Z * Qc)) : l ≡ₚ k → debitOf l ≡ₚ debitOf k.
Proof. intros H. unfold debitOf. by rewrite H. Qed.

Lemma creditOf_perm (l k : list (Z * Qc)) : l ≡ₚ k → creditOf l ≡ₚ creditOf k.
Proof. intros H. unfold creditOf. by rewrite H. Qed.

Lemma elem_of_debitOf (d : Debt) (l : list (Z * Qc)) :
  d ∈ debitOf l ↔ (Debt_UserID d, Debt_Amount d) ∈ l ∧ (0 < Debt_Amount d)%Qc.
Proof.
  unfold debitOf. rewrite list_elem_of_fmap. split.
  - intros [[v a] [-> [Hpos Hin]%list_elem_of_filter]].
    split; [exact Hin|exact Hpos].
  - intros [Hin Hpos]. exists (Debt_UserID d, Debt_Amount d). split.
    + by destruct d.
    + apply list_elem_of_filter. split; [exact Hpos|exact Hin].
Qed.

Lemma elem_of_creditOf (d : Debt) (l : list (Z * Qc)) :
  d ∈ creditOf l ↔
  ∃ a, (Debt_UserID d, a) ∈ l ∧ ¬ (0 < a)%Qc ∧ Debt_Amount d = (- a)%Qc.
Proof.
  unfold creditOf. rewrite list_elem_of_fmap. split.
  - intros [[v a] [-> [Hneg Hin]%list_elem_of_filter]].
    exists a. split; [exact Hin|]. split; [exact Hneg|reflexivity].
  - intros (a & Hin & Hneg & Ha). exists (Debt_UserID d, a). split.
    + destruct d as [v b]. cbn [Debt_Amount] in Ha. by subst b.
    + apply list_elem_of_filter. split; [exact Hneg|exact Hin].
Qed.

Lemma debitOf_users_sublist (l : list (Z * Qc)) :
  Debt_UserID <$> debitOf l `sublist_of` l.*1.
Proof.
  unfold debitOf. rewrite <- list_fmap_compose.
  change (Debt_UserID ∘ (λ e : Z * Qc, mkDebt e.1 e.2)) with (@fst Z Qc).
  apply fmap_sublist, sublist_filter.
Qed.

Lemma creditOf_users_sublist (l : list (Z * Qc)) :
  Debt_UserID <$> creditOf l `sublist_of` l.*1.
Proof.
  unfold creditOf. rewrite <- list_fmap_compose.
  change (Debt_UserID ∘ (λ e : Z * Qc, mkDebt e.1 (- e.2)%Qc)) with (@fst Z Qc).
  apply fmap_sublist, sublist_filter.
Qed.

Lemma sumDebts_split (l : list (Z * Qc)) :
  sumQc l.*2 = (sumDebts (debitOf l) - sumDebts (creditOf l))%Qc.
Proof.
  unfold sumDebts, creditOf, debitOf. induction l as [|e l IH].
  - cbn. change (sumQc []) with 0%Qc. ring.
  - rewrite !filter_cons, fmap_cons, sumQc_cons, IH.
    destruct (decide (0 < e.2)%Qc) as [Hpos|Hneg].
    + rewrite decide_False by tauto. rewrite !fmap_cons, sumQc_cons.
      cbn [Debt_Amount mkDebt]. ring.
    + rewrite decide_True by done. rewrite !fmap_cons, sumQc_cons.
      cbn [Debt_Amount mkDebt]. ring.
Qed.

(** *** Row sums *)

Lemma rowsum_empty : rowsum ∅ = 0%Qc.
Proof. unfold rowsum. by rewrite map_to_list_empty. Qed.

Lemma rowsum_insert_fresh (m : gmap Z Qc) (b : Z) (x : Qc) :
  m !! b = None → rowsum (<[b := x]> m) = (x + rowsum m)%Qc.
Proof.
  intros Hb. unfold rowsum.
  rewrite (sumQc_perm _ ((b, x) :: map_to_list m).*2).
  - by rewrite fmap_cons, sumQc_cons.
  - apply fmap_Permutation. by apply map_to_list_insert.
Qed.

Lemma rowsum_insert (m : gmap Z Qc) (b : Z) (x : Qc) :
  rowsum (<[b := (default 0 (m !! b) + x)%Qc]> m) = (rowsum m + x)%Qc.
Proof.
  destruct (m !! b) as [v|] eqn:Hb; cbn [default from_option id].
  - rewrite <- (insert_delete_id m b v) at 2 by done.
    rewrite <- insert_delete_eq.
    rewrite !rowsum_insert_fresh by apply lookup_delete_eq. ring.
  - rewrite rowsum_insert_fresh by done. ring.
Qed.

Lemma rowsum_post (d : DebtsMap) (p : Z * Z * Qc) (a : Z) :
  rowsum (row (post d p) a)
  = (rowsum (row d a) + (if bool_decide (p.1.1 = a) then p.2 else 0))%Qc.
Proof.
  unfold post. rewrite lookup_incr. case_bool_decide as Ha.
  - rewrite decide_True by done. subst a. apply rowsum_insert.
  - rewrite decide_False by done. ring.
Qed.

Lemma rowsum_fold_post (ps : list (Z * Z * Qc)) (d : DebtsMap) (a : Z) :
  rowsum (row (fold_left post ps d) a) = (rowsum (row d a) + postedTo a ps)%Qc.
Proof.
  unfold postedTo. revert d. induction ps as [|p ps IH]; intros d.
  - cbn. change (sumQc []) with 0%Qc. ring.
  - cbn [fold_left]. rewrite IH, rowsum_post, fmap_cons, sumQc_cons. ring.
Qed.

Lemma postedTo_app (a : Z) (ps qs : list (Z * Z * Qc)) :
  postedTo a (ps ++ qs) = (postedTo a ps + postedTo a qs)%Qc.
Proof. unfold postedTo. by rewrite fmap_app, sumQc_app. Qed.

Lemma postedTo_bind {A} (a : Z) (f : A → list (Z * Z * Qc)) (l : list A) :
  postedTo a (l ≫= f) = sumQc ((λ x, postedTo a (f x)) <$> l).
Proof.
  induction l as [|x l IH]; [done|].
  by rewrite bind_cons, postedTo_app, fmap_cons, sumQc_cons, IH.
Qed.

(** In a duplicate-free list that holds [u], summing [a] at [u] and [b]
    elsewhere. *)
Lemma sumQc_indicator (l : list Z) (u : Z) (a b : Qc) :
  NoDup l → u ∈ l →
  sumQc ((λ x, if bool_decide (x = u) then a else b) <$> l)
  = (a + float64 (Z.of_nat (length l) - 1) * b)%Qc.
Proof.
  unfold float64. induction l as [|x l IH]; intros Hnd Hin.
  - by apply elem_of_nil in Hin.
  - apply NoDup_cons in Hnd as [Hx Hnd].
    rewrite fmap_cons, sumQc_cons. cbn [length].
    rewrite Nat2Z.inj_succ.
    replace (Z.succ (Z.of_nat (length l)) - 1) with (Z.of_nat (length l)) by lia.
    destruct (decide (x = u)) as [->|Hne].
    + rewrite bool_decide_eq_true_2 by done.
      rewrite (sumQc_fmap_ext _ (λ _, b)).
      * by rewrite sumQc_const.
      * intros y Hy. rewrite bool_decide_eq_false_2; [done|]. by intros ->.
    + rewrite bool_decide_eq_false_2 by done.
      apply elem_of_cons in Hin as [?|Hin]; [congruence|].
      rewrite IH by done.
      replace (Z.of_nat (length l)) with ((Z.of_nat (length l) - 1) + 1) at 2 by lia.
      rewrite Z2Qc_inj_add, Z2Qc_inj_1. ring.
Qed.

(** What the postings of an expense add to the row of a user is the opposite
    of what the expense adds to the balance of that user. *)
Lemma postedTo_postingsFor (u : Z) (e : Expense) :
  NoDup (Users e) →
  postedTo u (postingsFor u e) = (- contribution u e)%Qc.
Proof.
  intros Hnd. unfold postingsFor, contribution.
  destruct (userTookPart (Users e) u) eqn:Htook.
  2:{ unfold postedTo. cbn. change (sumQc []) with 0%Qc. ring. }
  apply userTookPart_true in Htook.
  unfold postings, delta. rewrite postedTo_bind.
  set (p := (Amount e / float64 (Z.of_nat (length (Users e))))%Qc).
  case_bool_decide as Hown.
  - rewrite (sumQc_fmap_ext _ (λ x, if bool_decide (x = u) then 0 else - p)%Qc).
    + rewrite sumQc_indicator by done. ring.
    + intros x _. unfold postingsOf, postedTo. rewrite Hown.
      case_bool_decide as Hx; [done|].
      rewrite !fmap_cons, !sumQc_cons. cbn [fst snd].
      rewrite (bool_decide_eq_false_2 (x = u)) by done.
      rewrite (bool_decide_eq_true_2 (u = u)) by done.
      change (sumQc _) with 0%Qc. ring.
  - rewrite (sumQc_fmap_ext _ (λ x, if bool_decide (x = u) then p else 0)%Qc).
    + rewrite sumQc_indicator by done. ring.
    + intros x _. unfold postingsOf, postedTo.
      case_bool_decide as Hx.
      * subst x. rewrite bool_decide_eq_false_2 by done. done.
      * rewrite !fmap_cons, !sumQc_cons. cbn [fst snd].
        rewrite (bool_decide_eq_false_2 (OwnerID e = u)) by done.
        case_bool_decide; change (sumQc _) with 0%Qc; ring.
Qed.

Lemma rowsum_userDebts (es : list Expense) (u : Z) :
  (∀ e, e ∈ es → NoDup (Users e)) →
  rowsum (userDebts es u) = (- sumQc (contribution u <$> es))%Qc.
Proof.
  intros Hnd. unfold userDebts. rewrite accumulate_debts.
  change (default ∅ (?d !! u)) with (row d u).
  rewrite rowsum_fold_post. unfold row. rewrite lookup_empty.
  cbn [default from_option id]. rewrite rowsum_empty, postedTo_bind.
  rewrite (sumQc_fmap_ext _ (λ e, - contribution u e)%Qc).
  - rewrite sumQc_fmap_opp. ring.
  - intros e He. apply postedTo_postingsFor. by apply Hnd.
Qed.

(** *** Well-formedness of the balance *)

Lemma rangeOrder_ok_map_to_list : rangeOrder_ok map_to_list.
Proof. intros m. reflexivity. Qed.

Lemma NoDup_Debit (order : RangeOrder) (es : list Expense) (u : Z) :
  rangeOrder_ok order → NoDup (Debt_UserID <$> Debit (CalculateBalance order es u)).
Proof.
  intros Hord. rewrite CalculateBalance_Debit.
  eapply sublist_NoDup; [|apply debitOf_users_sublist].
  rewrite (Hord _). apply NoDup_fst_map_to_list.
Qed.

Lemma NoDup_Credit (order : RangeOrder) (es : list Expense) (u : Z) :
  rangeOrder_ok order → NoDup (Debt_UserID <$> Credit (CalculateBalance order es u)).
Proof.
  intros Hord. rewrite CalculateBalance_Credit.
  eapply sublist_NoDup; [|apply creditOf_users_sublist].
  rewrite (Hord _). apply NoDup_fst_map_to_list.
Qed.

Lemma Balance_credit_minus_debit (order : RangeOrder) (es : list Expense) (u : Z) :
  rangeOrder_ok order →
  (∀ e, e ∈ es → NoDup (Users e)) →
  Balance_Balance (CalculateBalance order es u)
  = (sumDebts (Credit (CalculateBalance order es u))
     - sumDebts (Debit (CalculateBalance order es u)))%Qc.
Proof.
  intros Hord Hnd.
  rewrite CalculateBalance_Balance, CalculateBalance_Credit, CalculateBalance_Debit.
  pose proof (rowsum_userDebts es u Hnd) as Hrow. unfold rowsum in Hrow.
  rewrite <- (sumQc_perm _ _ (fmap_Permutation snd _ _ (Hord (userDebts es u)))) in Hrow.
  rewrite sumDebts_split in Hrow.
  apply (f_equal Qcopp) in Hrow. rewrite Qcopp_involutive in Hrow.
  rewrite <- Hrow. ring.
Qed.

(** C4, as amended: when no expense names a user twice among its [Users]
    (each expense's [Users] containing its [OwnerID]), the [Balance] field
    of the result is the sum of the credit amounts minus the sum of the debit
    amounts; and in every case no two entries of the debit list, and no two of
    the credit list, have the same counterparty. *)
Theorem CalculateBalance_well_formed (order : RangeOrder) (es : list Expense) (u : Z) :
  rangeOrder_ok order →
  ((∀ e, e ∈ es → OwnerID e ∈ Users e ∧ NoDup (Users e)) →
   Balance_Balance (CalculateBalance order es u)
   = (sumDebts (Credit (CalculateBalance order es u))
      - sumDebts (Debit (CalculateBalance order es u)))%Qc)
  ∧ NoDup (Debt_UserID <$> Debit (CalculateBalance order es u))
  ∧ NoDup (Debt_UserID <$> Credit (CalculateBalance order es u)).
Proof.
  intros Hord. split; [|split].
  - intros Hwf. apply Balance_credit_minus_debit; [done|].
    intros e He. by apply Hwf.
  - by apply NoDup_Debit.
  - by apply NoDup_Credit.
Qed.

(** The invariant on the meal and the coffee, for user 1. *)
Lemma CalculateBalance_well_formed_witness :
  Balance_Balance (CalculateBalance map_to_list [meal; coffee] 1)
  = (sumDebts (Credit (CalculateBalance map_to_list [meal; coffee] 1))
     - sumDebts (Debit (CalculateBalance map_to_list [meal; coffee] 1)))%Qc.
Proof.
  apply (CalculateBalance_well_formed map_to_list [meal; coffee] 1
           rangeOrder_ok_map_to_list).
  intros e He. apply (bool_decide_unpack _).
  apply elem_of_cons in He as [->|He]; [by vm_compute|].
  apply list_elem_of_singleton in He as ->. by vm_compute.
Defined.

(** C4, as stated, fails where an expense names a user twice: with
    [Users = [1; 2; 2]] paid by user 1, user 2 gets balance -1 but a debit
    of 2. *)
Lemma CalculateBalance_duplicate_breaks_sum :
  rangeOrder_ok map_to_list
  ∧ (∀ e, e ∈ [sharedTwice] → OwnerID e ∈ Users e)
  ∧ Balance_Balance (CalculateBalance map_to_list [sharedTwice] 2) = float64 (-1)
  ∧ Debit (CalculateBalance map_to_list [sharedTwice] 2) = [mkDebt 1 (float64 2)]
  ∧ Credit (CalculateBalance map_to_list [sharedTwice] 2) = []
  ∧ Balance_Balance (CalculateBalance map_to_list [sharedTwice] 2)
    ≠ (sumDebts (Credit (CalculateBalance map_to_list [sharedTwice] 2))
       - sumDebts (Debit (CalculateBalance map_to_list [sharedTwice] 2)))%Qc.
Proof.
  split; [apply rangeOrder_ok_map_to_list|]. split.
  - intros e ->%list_elem_of_singleton. by_evaluation.
  - repeat split; by_evaluation.
Qed.

(** *** Signs of the amounts and the place of a zero total *)

(** C10: every debit entry has a strictly positive amount, every credit entry
    a non-negative one, and a counterparty whose accumulated total is exactly
    zero is emitted in the credit list with amount 0 (and not in the debit
    list). *)
Theorem CalculateBalance_signs (order : RangeOrder) (es : list Expense) (u : Z) :
  rangeOrder_ok order →
  (∀ d, d ∈ Debit (CalculateBalance order es u) → (0 < Debt_Amount d)%Qc)
  ∧ (∀ d, d ∈ Credit (CalculateBalance order es u) → (0 ≤ Debt_Amount d)%Qc)
  ∧ (∀ v, userDebts es u !! v = Some 0%Qc →
       mkDebt v 0%Qc ∈ Credit (CalculateBalance order es u)
       ∧ v ∉ Debt_UserID <$> Debit (CalculateBalance order es u)).
Proof.
  intros Hord. rewrite CalculateBalance_Debit, CalculateBalance_Credit.
  split; [|split].
  - intros d Hd. by apply elem_of_debitOf in Hd as [_ Hpos].
  - intros d Hd. apply elem_of_creditOf in Hd as (a & _ & Hneg & ->).
    apply Qcnot_lt_le in Hneg.
    apply Qcopp_le_compat in Hneg.
    by replace (- 0)%Qc with 0%Qc in Hneg by ring.
  - intros v Hv. split.
    + apply elem_of_map_to_list in Hv. rewrite <- (Hord _) in Hv.
      apply elem_of_creditOf. exists 0%Qc. cbn [Debt_UserID Debt_Amount mkDebt].
      split; [done|]. split; [apply (irreflexivity Qclt)|done].
    + intros Hin. apply list_elem_of_fmap in Hin as (d & -> & Hd).
      apply elem_of_debitOf in Hd as [Hd Hpos].
      rewrite (Hord _) in Hd. apply elem_of_map_to_list in Hd.
      rewrite Hv in Hd. injection Hd as Hd.
      rewrite <- Hd in Hpos. by apply (irreflexivity Qclt) in Hpos.
Qed.

(** After two rounds of the same price, each paid by one of two users, user 1
    has user 2 in the credit list with amount 0. *)
Lemma CalculateBalance_signs_witness :
  mkDebt 2 0%Qc ∈ Credit (CalculateBalance map_to_list [roundOne; roundTwo] 1)
  ∧ 2 ∉ Debt_UserID <$> Debit (CalculateBalance map_to_list [roundOne; roundTwo] 1).
Proof.
  apply (CalculateBalance_signs map_to_list [roundOne; roundTwo] 1
           rangeOrder_ok_map_to_list).
  by_evaluation.
Defined.

(** *** Reordering the expenses *)

Lemma accumulate_perm (es es' : list Expense) (u : Z) :
  es ≡ₚ es' → accumulate es u = accumulate es' u.
Proof.
  intros Hp. apply injective_projections.
  - rewrite !accumulate_balance. apply sumQc_perm. by apply fmap_Permutation.
  - rewrite !accumulate_debts. apply fold_left_comm_perm; [apply post_comm|].
    by rewrite Hp.
Qed.

(** C5: for every permutation of the expense list the result has the same
    [Balance] field, and debit and credit lists with the same entries,
    whatever the orders in which the two calls range over the debts of the
    subject; with one order the two results are equal. *)
Theorem CalculateBalance_permutation (order order' : RangeOrder)
    (es es' : list Expense) (u : Z) :
  rangeOrder_ok order → rangeOrder_ok order' → es ≡ₚ es' →
  Balance_Balance (CalculateBalance order es u)
  = Balance_Balance (CalculateBalance order' es' u)
  ∧ Debit (CalculateBalance order es u) ≡ₚ Debit (CalculateBalance order' es' u)
  ∧ Credit (CalculateBalance order es u) ≡ₚ Credit (CalculateBalance order' es' u)
  ∧ CalculateBalance order es u = CalculateBalance order es' u.
Proof.
  intros Hord Hord' Hp. pose proof (accumulate_perm es es' u Hp) as Hacc.
  assert (userDebts es u = userDebts es' u) as Hdebts.
  { unfold userDebts. by rewrite Hacc. }
  split; [|split; [|split]].
  - unfold CalculateBalance. cbn [Balance_Balance]. by rewrite Hacc.
  - rewrite !CalculateBalance_Debit, Hdebts.
    apply debitOf_perm. by rewrite (Hord _), (Hord' _).
  - rewrite !CalculateBalance_Credit, Hdebts.
    apply creditOf_perm. by rewrite (Hord _), (Hord' _).
  - unfold CalculateBalance. by rewrite Hacc, Hdebts.
Qed.

(** The meal and the coffee in either order. *)
Lemma CalculateBalance_permutation_witness :
  Balance_Balance (CalculateBalance map_to_list [meal; coffee] 1)
  = Balance_Balance (CalculateBalance map_to_list [coffee; meal] 1)
  ∧ Debit (CalculateBalance map_to_list [meal; coffee] 1)
    ≡ₚ Debit (CalculateBalance map_to_list [coffee; meal] 1)
  ∧ Credit (CalculateBalance map_to_list [meal; coffee] 1)
    ≡ₚ Credit (CalculateBalance map_to_list [coffee; meal] 1)
  ∧ CalculateBalance map_to_list [meal; coffee] 1
    = CalculateBalance map_to_list [coffee; meal] 1.
Proof.
  apply (CalculateBalance_permutation map_to_list map_to_list
           [meal; coffee] [coffee; meal] 1
           rangeOrder_ok_map_to_list rangeOrder_ok_map_to_list).
  apply perm_swap.
Defined.

(** *** Who takes part in an expense *)

Lemma accumulate_skip (es1 es2 : list Expense) (e : Expense) (u : Z) :
  u ∉ Users e → accumulate (es1 ++ e :: es2) u = accumulate (es1 ++ es2) u.
Proof.
  intros Hu. unfold accumulate. rewrite !fold_left_app. cbn [fold_left].
  unfold processExpense at 2.
  by rewrite (proj2 (userTookPart_false _ _) Hu).
Qed.

Lemma Balance_insert (order : RangeOrder) (es1 es2 : list Expense) (e : Expense) (u : Z) :
  Balance_Balance (CalculateBalance order (es1 ++ e :: es2) u)
  = (Balance_Balance (CalculateBalance order (es1 ++ es2) u) + contribution u e)%Qc.
Proof.
  rewrite !CalculateBalance_Balance, !fmap_app, fmap_cons, !sumQc_app, sumQc_cons.
  ring.
Qed.

(** C9: an expense counts toward the balance of a user exactly when the user
    is in its [Users]: if not, the whole result is as without the expense,
    the owner included; if so, the balance falls by [Amount / len(Users)] for
    a user who is not the owner and rises by [len(Users) - 1] such shares for
    the owner.  In particular an expense whose [Users] omits its owner leaves
    the result for the owner as it was. *)
Theorem CalculateBalance_participation (order : RangeOrder)
    (es1 es2 : list Expense) (e : Expense) (u : Z) :
  (u ∉ Users e →
     CalculateBalance order (es1 ++ e :: es2) u
     = CalculateBalance order (es1 ++ es2) u)
  ∧ (u ∈ Users e → u ≠ OwnerID e →
     Balance_Balance (CalculateBalance order (es1 ++ e :: es2) u)
     = (Balance_Balance (CalculateBalance order (es1 ++ es2) u)
        - Amount e / float64 (Z.of_nat (length (Users e))))%Qc)
  ∧ (u ∈ Users e → u = OwnerID e →
     Balance_Balance (CalculateBalance order (es1 ++ e :: es2) u)
     = (Balance_Balance (CalculateBalance order (es1 ++ es2) u)
        + float64 (Z.of_nat (length (Users e)) - 1)
          * (Amount e / float64 (Z.of_nat (length (Users e)))))%Qc)
  ∧ (OwnerID e ∉ Users e →
     CalculateBalance order (es1 ++ e :: es2) (OwnerID e)
     = CalculateBalance order (es1 ++ es2) (OwnerID e)).
Proof.
  assert (∀ v, v ∉ Users e →
            CalculateBalance order (es1 ++ e :: es2) v
            = CalculateBalance order (es1 ++ es2) v) as Hskip.
  { intros v Hv. unfold CalculateBalance, userDebts.
    by rewrite (accumulate_skip es1 es2 e v Hv). }
  split; [apply Hskip|]. split; [|split; [|apply Hskip]].
  - intros Hin Hne. rewrite Balance_insert. unfold contribution, delta.
    rewrite (proj2 (userTookPart_true _ _) Hin).
    by rewrite bool_decide_eq_false_2 by congruence.
  - intros Hin Heq. rewrite Balance_insert. unfold contribution, delta.
    rewrite (proj2 (userTookPart_true _ _) Hin).
    by rewrite bool_decide_eq_true_2 by congruence.
Qed.

(** *** The closed system *)

Lemma sumQc_exchange {A B} (f : A → B → Qc) (us : list A) (es : list B) :
  sumQc ((λ u, sumQc (f u <$> es)) <$> us)
  = sumQc ((λ e, sumQc ((λ u, f u e) <$> us)) <$> es).
Proof.
  induction us as [|u us IH].
  - cbn [fmap list_fmap]. change (sumQc []) with 0%Qc.
    symmetry. rewrite (sumQc_const es 0%Qc). ring.
  - rewrite fmap_cons, sumQc_cons, IH.
    rewrite <- sumQc_fmap_plus. apply sumQc_fmap_ext. intros e _.
    by rewrite fmap_cons, sumQc_cons.
Qed.

Lemma sumQc_restrict (f : Z → Qc) (S us : list Z) :
  NoDup S → NoDup us → (∀ x, x ∈ S → x ∈ us) →
  sumQc ((λ u, if bool_decide (u ∈ S) then f u else 0%Qc) <$> us)
  = sumQc (f <$> S).
Proof.
  intros HS. revert us. induction HS as [|x S Hx HS IH]; intros us Hus Hsub.
  - rewrite (sumQc_fmap_ext _ (λ _, 0%Qc)).
    + rewrite sumQc_const. change (sumQc _) with 0%Qc. ring.
    + intros u _. rewrite bool_decide_eq_false_2; [done|apply not_elem_of_nil].
  - assert (x ∈ us) as Hxus by (apply Hsub, list_elem_of_here).
    apply elem_of_Permutation in Hxus as [us' Hperm].
    rewrite (sumQc_perm _ _ (fmap_Permutation _ _ _ Hperm)).
    rewrite Hperm in Hus. apply NoDup_cons in Hus as [Hxus' Hus'].
    rewrite !fmap_cons, !sumQc_cons.
    rewrite bool_decide_eq_true_2 by apply list_elem_of_here.
    rewrite <- (IH us' Hus').
    + f_equal. apply sumQc_fmap_ext. intros u Hu.
      assert (u ≠ x) as Hne by (by intros ->).
      destruct (decide (u ∈ S)) as [Hin|Hnin].
      * rewrite !bool_decide_eq_true_2; [done|done|by apply list_elem_of_further].
      * rewrite !bool_decide_eq_false_2; [done|done|].
        rewrite elem_of_cons. tauto.
    + intros y Hy. assert (y ∈ us) as Hyus by (by apply Hsub, list_elem_of_further).
      rewrite Hperm in Hyus. apply elem_of_cons in Hyus as [->|?]; [done|done].
Qed.

Lemma delta_sum_zero (e : Expense) :
  NoDup (Users e) → OwnerID e ∈ Users e →
  sumQc (delta e <$> Users e) = 0%Qc.
Proof.
  intros Hnd Hin. unfold delta.
  set (p := (Amount e / float64 (Z.of_nat (length (Users e))))%Qc).
  set (n := float64 (Z.of_nat (length (Users e)) - 1)).
  rewrite (sumQc_fmap_ext _
             (λ x, if bool_decide (x = OwnerID e) then n * p else - p)%Qc).
  - rewrite sumQc_indicator by done. fold n. ring.
  - intros x _. rewrite (bool_decide_ext (OwnerID e = x) (x = OwnerID e)); [done|].
    split; congruence.
Qed.

Lemma contribution_sum_zero (e : Expense) (us : list Z) :
  NoDup us → NoDup (Users e) → OwnerID e ∈ Users e →
  (∀ x, x ∈ Users e → x ∈ us) →
  sumQc ((λ u, contribution u e) <$> us) = 0%Qc.
Proof.
  intros Hus Hnd Hin Hsub. unfold contribution.
  rewrite (sumQc_fmap_ext _
             (λ u, if bool_decide (u ∈ Users e) then delta e u else 0%Qc)).
  - rewrite sumQc_restrict by done. by apply delta_sum_zero.
  - intros u _. by rewrite userTookPart_spec.
Qed.

(** The balances of any duplicate-free list of users that holds every
    participant sum to zero. *)
Lemma closed_system_over (order : RangeOrder) (es : list Expense) (us : list Z) :
  NoDup us →
  (∀ e, e ∈ es → NoDup (Users e) ∧ OwnerID e ∈ Users e
                 ∧ ∀ x, x ∈ Users e → x ∈ us) →
  sumQc ((λ u, Balance_Balance (CalculateBalance order es u)) <$> us) = 0%Qc.
Proof.
  intros Hus Hwf.
  rewrite (sumQc_fmap_ext _ (λ u, sumQc ((λ e, contribution u e) <$> es))).
  2:{ intros u _. apply CalculateBalance_Balance. }
  rewrite (sumQc_exchange (λ u e, contribution u e)).
  rewrite (sumQc_fmap_ext _ (λ _, 0%Qc)).
  - rewrite sumQc_const. ring.
  - intros e He. destruct (Hwf e He) as (Hnd & Hin & Hsub).
    by apply contribution_sum_zero.
Qed.

Lemma elem_of_participants (es : list Expense) (e : Expense) (x : Z) :
  e ∈ es → x ∈ Users e → x ∈ participants es.
Proof.
  intros He Hx. unfold participants.
  apply elem_of_remove_dups, list_elem_of_bind. by exists e.
Qed.

(** C3, as amended: when each expense has a positive amount and its [Users]
    list names no user twice and contains its [OwnerID] and at least one other
    user, the balances of all the users that take part in some expense sum to
    zero. *)
Theorem closed_system (order : RangeOrder) (es : list Expense) :
  (∀ e, e ∈ es →
     (0 < Amount e)%Qc ∧ NoDup (Users e) ∧ OwnerID e ∈ Users e
     ∧ ∃ v, v ∈ Users e ∧ v ≠ OwnerID e) →
  sumQc ((λ u, Balance_Balance (CalculateBalance order es u)) <$> participants es)
  = 0%Qc.
Proof.
  intros Hwf. apply closed_system_over.
  - apply NoDup_remove_dups.
  - intros e He. destruct (Hwf e He) as (_ & Hnd & Hin & _).
    split; [done|]. split; [done|].
    intros x Hx. by apply (elem_of_participants es e).
Qed.

(** The balances after the meal and the coffee sum to zero. *)
Lemma closed_system_witness :
  sumQc ((λ u, Balance_Balance (CalculateBalance map_to_list [meal; coffee] u))
           <$> participants [meal; coffee])
  = 0%Qc.
Proof.
  apply (closed_system map_to_list [meal; coffee]).
  intros e He.
  assert (e = meal ∨ e = coffee) as [->| ->].
  { apply elem_of_cons in He as [?|He]; [by left|].
    apply list_elem_of_singleton in He. by right. }
  - split; [by vm_compute|]. split; [by_evaluation|].
    split; [by_evaluation|].
    exists 2. split; [by_evaluation|done].
  - split; [by vm_compute|]. split; [by_evaluation|].
    split; [by_evaluation|].
    exists 1. split; [by_evaluation|done].
Defined.

(** C3, as stated, fails where an expense names one of the others twice:
    [Users = [1; 2; 2]] holds the owner 1 exactly once and another user, yet
    the balances of users 1 and 2 are 2 and -1. *)
Lemma closed_system_duplicate_breaks :
  (∀ e, e ∈ [sharedTwice] →
     (0 < Amount e)%Qc
     ∧ length (filter (λ v, v = OwnerID e) (Users e)) = 1%nat
     ∧ ∃ v, v ∈ Users e ∧ v ≠ OwnerID e)
  ∧ participants [sharedTwice] = [1; 2]
  ∧ Balance_Balance (CalculateBalance map_to_list [sharedTwice] 1) = float64 2
  ∧ Balance_Balance (CalculateBalance map_to_list [sharedTwice] 2) = float64 (-1)
  ∧ sumQc ((λ u, Balance_Balance (CalculateBalance map_to_list [sharedTwice] u))
             <$> participants [sharedTwice])
    ≠ 0%Qc.
Proof.
  split.
  - intros e ->%list_elem_of_singleton. split; [by vm_compute|].
    split; [by vm_compute|].
    exists 2. split; [by_evaluation|done].
  - repeat split; by_evaluation.
Qed.

(** *** The scenarios of the ledger test *)

Lemma Debit_of_row (order : RangeOrder) (es : list Expense) (u : Z) (l : list Debt) :
  rangeOrder_ok order →
  debitOf (map_to_list (userDebts es u)) = l →
  Debit (CalculateBalance order es u) ≡ₚ l.
Proof.
  intros Hord <-. rewrite CalculateBalance_Debit. apply debitOf_perm, Hord.
Qed.

Lemma Credit_of_row (order : RangeOrder) (es : list Expense) (u : Z) (l : list Debt) :
  rangeOrder_ok order →
  creditOf (map_to_list (userDebts es u)) = l →
  Credit (CalculateBalance order es u) ≡ₚ l.
Proof.
  intros Hord <-. rewrite CalculateBalance_Credit. apply creditOf_perm, Hord.
Qed.

Ltac scenario_balance :=
  rewrite CalculateBalance_Balance; by_evaluation.

Ltac scenario_debit Hord :=
  first [ apply Permutation_nil_r | apply Permutation_singleton_r | idtac ];
  apply (Debit_of_row _ _ _ _ Hord); by_evaluation.

Ltac scenario_credit Hord :=
  first [ apply Permutation_nil_r | apply Permutation_singleton_r | idtac ];
  apply (Credit_of_row _ _ _ _ Hord); by_evaluation.

(** C2: the two scenarios.  After the meal (42, paid by user 1, shared by
    users 1, 2 and 3): user 1 has balance 28, credit 14 from each of users 2
    and 3 and no debit; users 2 and 3 have balance -14 and a debit of 14 to
    user 1.  After the meal and the coffee (8, paid by user 2, shared by users
    1 and 2): user 1 has balance 24 and credit 10 from user 2 and 14 from
    user 3; user 2 has balance -10 and a debit of 10 to user 1; user 3 is as
    before. *)
Theorem CalculateBalance_scenarios (order : RangeOrder) :
  rangeOrder_ok order →
  (Balance_Balance (CalculateBalance order [meal] 1) = float64 28
   ∧ Credit (CalculateBalance order [meal] 1)
     ≡ₚ [mkDebt 2 (float64 14); mkDebt 3 (float64 14)]
   ∧ Debit (CalculateBalance order [meal] 1) = [])
  ∧ (Balance_Balance (CalculateBalance order [meal] 2) = float64 (-14)
     ∧ Debit (CalculateBalance order [meal] 2) = [mkDebt 1 (float64 14)]
     ∧ Credit (CalculateBalance order [meal] 2) = [])
  ∧ (Balance_Balance (CalculateBalance order [meal] 3) = float64 (-14)
     ∧ Debit (CalculateBalance order [meal] 3) = [mkDebt 1 (float64 14)]
     ∧ Credit (CalculateBalance order [meal] 3) = [])
  ∧ (Balance_Balance (CalculateBalance order [meal; coffee] 1) = float64 24
     ∧ Credit (CalculateBalance order [meal; coffee] 1)
       ≡ₚ [mkDebt 2 (float64 10); mkDebt 3 (float64 14)]
     ∧ Debit (CalculateBalance order [meal; coffee] 1) = [])
  ∧ (Balance_Balance (CalculateBalance order [meal; coffee] 2) = float64 (-10)
     ∧ Debit (CalculateBalance order [meal; coffee] 2) = [mkDebt 1 (float64 10)]
     ∧ Credit (CalculateBalance order [meal; coffee] 2) = [])
  ∧ (Balance_Balance (CalculateBalance order [meal; coffee] 3) = float64 (-14)
     ∧ Debit (CalculateBalance order [meal; coffee] 3) = [mkDebt 1 (float64 14)]
     ∧ Credit (CalculateBalance order [meal; coffee] 3) = []).
Proof.
  intros Hord. repeat split.
  - scenario_balance.
  - etransitivity; [|apply perm_swap]. scenario_credit Hord.
  - scenario_debit Hord.
  - scenario_balance.
  - scenario_debit Hord.
  - scenario_credit Hord.
  - scenario_balance.
  - scenario_debit Hord.
  - scenario_credit Hord.
  - scenario_balance.
  - etransitivity; [|apply perm_swap]. scenario_credit Hord.
  - scenario_debit Hord.
  - scenario_balance.
  - scenario_debit Hord.
  - scenario_credit Hord.
  - scenario_balance.
  - scenario_debit Hord.
  - scenario_credit Hord.
Qed.

(** The first balance of the first scenario, ranging in the order of the map. *)
Lemma CalculateBalance_scenarios_witness :
  Balance_Balance (CalculateBalance map_to_list [meal] 1) = float64 28.
Proof.
  apply (CalculateBalance_scenarios map_to_list rangeOrder_ok_map_to_list).
Defined.

(** ** Properties of the store *)

Lemma accumulate_filter (es : list Expense) (u : Z) :
  accumulate (filter (λ e, u ∈ Users e) es) u = accumulate es u.
Proof.
  unfold accumulate. generalize (0%Qc, (∅ : DebtsMap)).
  induction es as [|e es IH]; intros st; [done|].
  rewrite filter_cons. destruct (decide (u ∈ Users e)) as [Hin|Hnin].
  - cbn [fold_left]. apply IH.
  - cbn [fold_left]. rewrite IH. f_equal. unfold processExpense.
    by rewrite (proj2 (userTookPart_false _ _) Hnin).
Qed.

(** C8, as amended: [GetExpenses] returns every expense of the store,
    whatever the user: it omits no expense in which the user participates, as
    owner or as a listed user, and it may hold expenses in which the user does
    not participate; those do not change what [CalculateBalance] returns. *)
Theorem GetExpenses_all (order : RangeOrder) (u : Z) (store : InMemoryDatabase) :
  GetExpenses u store = expenses store
  ∧ (∀ e, e ∈ expenses store → u = OwnerID e ∨ u ∈ Users e →
          e ∈ GetExpenses u store)
  ∧ CalculateBalance order (GetExpenses u store) u
    = CalculateBalance order (filter (λ e, u ∈ Users e) (GetExpenses u store)) u.
Proof.
  split; [done|]. split; [by intros e He _|].
  unfold CalculateBalance, userDebts. by rewrite accumulate_filter.
Qed.

(** C8, as stated, fails: the listing for user 3 holds the coffee that user 1
    paid for user 2. *)
Lemma GetExpenses_holds_foreign_expense :
  GetExpenses 3 oneCoffee
  = [{| ExpenseID := 1; OwnerID := 1; Users := [2; 1]; Amount := float64 8;
        Description := "Coffee"; CreatedAt := 0 |}]
  ∧ ∃ e, e ∈ GetExpenses 3 oneCoffee ∧ 3 ≠ OwnerID e ∧ 3 ∉ Users e.
Proof.
  split; [reflexivity|].
  eexists. split; [apply list_elem_of_here|]. split; [done|].
  cbn. by_evaluation.
Qed.

(** ** Properties of the caches *)

Lemma makeKey_inj (u v : Z) : makeKey u = makeKey v → u = v.
Proof.
  unfold makeKey. intros H. apply (inj pretty).
  cbn in H. by injection H.
Qed.

Lemma redisGet_redisSet {Json} (now now' : Z) (key : string) (value : Json)
    (ttl : Z) (r : RedisCache Json) :
  now' < now + ttl → redisGet now' key (redisSet now key value ttl r) = Some value.
Proof.
  intros Hlt. unfold redisGet, redisSet. cbn [rdb].
  rewrite lookup_insert_eq. by rewrite bool_decide_eq_true_2.
Qed.

(** C1, as amended: for the Redis cache, [GetBalance] on a miss (no entry
    under the key of the user, or an expired one) returns
    [CalculateBalance] of the expenses of the store and stores its JSON text
    under the key of the user with the time to live; where the JSON text
    decodes to the balance it encodes, a second [GetBalance] before the
    entry expires returns the same balance whatever the store then holds and
    leaves the cache as it is.  The in-memory cache does no read-through: on a
    miss it returns the zero [Balance] and stores nothing. *)
Theorem GetBalance_read_through {Json D : Type} `{!Database D}
    (marshal : Balance → Json) (unmarshal : Json → option Balance)
    (order : RangeOrder) (now : Z) (store : D) (u : Z)
    (r : RedisCache Json) (c : InMemoryCache) :
  redisGet now (makeKey u) r = None →
  let balance := CalculateBalance order (GetExpenses u store) u in
  let r' := setBalanceWithRdb marshal now r balance u in
  GetBalance (Cache := RedisCache_Cache marshal unmarshal) order now store u r
  = Some (balance, r')
  ∧ rdb r' !! makeKey u = Some (marshal balance, now + cacheEntryTTL)
  ∧ (unmarshal (marshal balance) = Some balance →
     ∀ order' now' (store' : D), now ≤ now' < now + cacheEntryTTL →
       GetBalance (Cache := RedisCache_Cache marshal unmarshal)
         order' now' store' u r'
       = Some (balance, r'))
  ∧ (entries c !! u = None →
     GetBalance order now store u c = Some (zeroBalance, c)).
Proof.
  intros Hmiss balance r'. split; [|split; [|split]].
  - cbn [GetBalance RedisCache_Cache]. unfold RedisCache_GetBalance.
    by rewrite Hmiss.
  - unfold r', setBalanceWithRdb, redisSet. cbn [rdb]. apply lookup_insert_eq.
  - intros Hround order' now' store' [_ Hlt].
    cbn [GetBalance RedisCache_Cache]. unfold RedisCache_GetBalance.
    unfold r' at 1, setBalanceWithRdb.
    rewrite redisGet_redisSet by done. by rewrite Hround.
  - intros Hnone. cbn [GetBalance InMemoryCache_Cache].
    unfold InMemoryCache_GetBalance. by rewrite Hnone.
Qed.

(** A miss on an empty Redis, with the balance itself as its JSON text. *)
Lemma GetBalance_read_through_witness :
  GetBalance (Cache := RedisCache_Cache id Some) map_to_list 0 oneCoffee 2
    {| rdb := ∅ |}
  = Some (CalculateBalance map_to_list (GetExpenses 2 oneCoffee) 2,
          setBalanceWithRdb id 0 {| rdb := ∅ |}
            (CalculateBalance map_to_list (GetExpenses 2 oneCoffee) 2) 2).
Proof.
  apply (GetBalance_read_through id Some map_to_list 0 oneCoffee 2
           {| rdb := ∅ |} NewInMemoryCache); reflexivity.
Defined.

(** C1, as stated, fails for the in-memory cache: with no entry for user 2,
    who owes 4 for the coffee, [GetBalance] returns the zero [Balance] and
    leaves the cache empty. *)
Lemma InMemoryCache_GetBalance_no_read_through :
  entries NewInMemoryCache !! 2 = None
  ∧ GetBalance map_to_list 0 oneCoffee 2 NewInMemoryCache
    = Some (zeroBalance, NewInMemoryCache)
  ∧ CalculateBalance map_to_list (GetExpenses 2 oneCoffee) 2
    = {| Balance_Balance := float64 (-4); Debit := [mkDebt 1 (float64 4)];
         Credit := [] |}
  ∧ zeroBalance ≠ CalculateBalance map_to_list (GetExpenses 2 oneCoffee) 2.
Proof.
  split; [done|]. split; [done|]. split; by_evaluation.
Qed.

(** ** Properties of the expenses endpoint *)

Lemma checkUsers_None (u : Z) (seen : gmap Z bool) (us : list Z) :
  checkUsers u seen us = None
  ↔ (u ∉ us) ∧ NoDup us ∧ ∀ x, x ∈ us → seen !! x = None.
Proof.
  revert seen. induction us as [|x us IH]; intros seen; cbn [checkUsers].
  - split; [|done]. intros _. split; [apply not_elem_of_nil|].
    split; [apply NoDup_nil_2|]. intros x Hx. by apply elem_of_nil in Hx.
  - case_bool_decide as Hxu.
    { split; [done|]. intros (Hu & _ & _). subst x.
      by destruct Hu; apply list_elem_of_here. }
    destruct (decide (is_Some (seen !! x))) as [Hseen|Hfresh].
    { split; [done|]. intros (_ & _ & Hnone).
      rewrite (Hnone x) in Hseen by apply list_elem_of_here.
      by destruct Hseen. }
    rewrite IH. apply eq_None_not_Some in Hfresh.
    split.
    + intros (Hu & Hnd & Hnone). split; [|split].
      * rewrite not_elem_of_cons. split; [congruence|done].
      * apply NoDup_cons. split; [|done]. intros Hx.
        specialize (Hnone x Hx). by rewrite lookup_insert_eq in Hnone.
      * intros y Hy. apply elem_of_cons in Hy as [->|Hy]; [done|].
        specialize (Hnone y Hy).
        destruct (decide (x = y)) as [->|Hne].
        -- by rewrite lookup_insert_eq in Hnone.
        -- by rewrite lookup_insert_ne in Hnone.
    + intros (Hu & Hnd & Hnone). apply not_elem_of_cons in Hu as [_ Hu].
      apply NoDup_cons in Hnd as [Hx Hnd]. split; [done|]. split; [done|].
      intros y Hy. rewrite lookup_insert_ne; [|by intros ->].
      apply Hnone. by apply list_elem_of_further.
Qed.

Lemma checkUsers_empty_None (u : Z) (us : list Z) :
  checkUsers u ∅ us = None ↔ (u ∉ us) ∧ NoDup us.
Proof.
  rewrite checkUsers_None. split; [tauto|]. intros [Hu Hnd].
  split; [done|]. split; [done|]. intros x _. apply lookup_empty.
Qed.

Lemma Code_writeError (w : ResponseWriter) (code : Z) (message : string) :
  Code w = None → Code (writeError w code message) = Some code.
Proof. intros Hw. unfold writeError, WriteHeader. cbn [Code]. by rewrite Hw. Qed.

Section api_properties.
Context {D C : Type} `{!Database D, !Cache C}.
Variable parseRFC3339 : string → option Z.

(** A request that passes every check is stored and written through. *)
Lemma postExpenses_valid (order : RangeOrder) (now : Z) (w : ResponseWriter)
    (r : Request) (u : Z) (api : API D C) (e : createExpenseRequest)
    (createdAt : Z) :
  Method r = "POST" →
  Body r = Some e →
  req_Description e ≠ "" →
  (0 < req_Amount e)%Qc →
  parseRFC3339 (req_CreatedAt e) = Some createdAt →
  req_Users e ≠ [] →
  u ∉ req_Users e →
  NoDup (req_Users e) →
  postExpenses parseRFC3339 order now w r u api
  = (WriteHeader StatusCreated w,
     {| db := CreateExpense
                {| ExpenseID := 0; OwnerID := u;
                   Description := req_Description e; Amount := req_Amount e;
                   CreatedAt := createdAt; Users := req_Users e |} (db api);
        cache := SetBalance now
                   (CalculateBalance order
                      (GetExpenses u
                         (CreateExpense
                            {| ExpenseID := 0; OwnerID := u;
                               Description := req_Description e;
                               Amount := req_Amount e;
                               CreatedAt := createdAt; Users := req_Users e |}
                            (db api))) u)
                   u (cache api) |}).
Proof.
  intros Hm Hb Hd Ha Ht Hne Hself Hnd. unfold postExpenses.
  rewrite Hm, Hb, Ht.
  rewrite (bool_decide_eq_false_2 ("POST" ≠ "POST")) by (intros H; by apply H).
  rewrite (bool_decide_eq_false_2 (req_Description e = "")) by done.
  rewrite decide_False by (by apply Qclt_not_le).
  rewrite bool_decide_eq_false_2.
  2:{ destruct (req_Users e); [done|]. cbn [length]. lia. }
  by rewrite (proj2 (checkUsers_empty_None u (req_Users e)) (conj Hself Hnd)).
Qed.

(** A request that fails a check changes nothing and is answered by 400. *)
Lemma postExpenses_invalid (order : RangeOrder) (now : Z) (w : ResponseWriter)
    (r : Request) (u : Z) (api : API D C) (e : createExpenseRequest) :
  Body r = Some e →
  req_Description e = "" ∨ (req_Amount e ≤ 0)%Qc
  ∨ parseRFC3339 (req_CreatedAt e) = None ∨ req_Users e = []
  ∨ u ∈ req_Users e ∨ ¬ NoDup (req_Users e) →
  ∃ message,
    postExpenses parseRFC3339 order now w r u api
    = (writeError
         (if bool_decide (Method r ≠ "POST")
          then writeError w StatusMethodNotAllowed "method not allowed" else w)
         StatusBadRequest message,
       api).
Proof.
  intros Hb Hbad. unfold postExpenses. rewrite Hb.
  case_bool_decide as Hd; [by eexists|].
  destruct (decide (req_Amount e ≤ 0)%Qc) as [Ha|Ha]; [by eexists|].
  destruct (parseRFC3339 (req_CreatedAt e)) as [t|] eqn:Ht; [|by eexists].
  case_bool_decide as Hlen; [by eexists|].
  destruct (checkUsers u ∅ (req_Users e)) as [message|] eqn:Hcheck; [by eexists|].
  apply checkUsers_empty_None in Hcheck as [Hself Hnd].
  destruct Hbad as [?|[?|[?|[Hnil|[?|?]]]]]; try done.
  rewrite Hnil in Hlen. cbn [length] in Hlen. lia.
Qed.

End api_properties.

(** Whatever the request, the store is left as it was or grows by one expense
    that passed the checks. *)
Lemma postExpenses_store {C : Type} `{!Cache C}
    (parseRFC3339 : string → option Z)
    (order : RangeOrder) (now : Z) (w : ResponseWriter)
    (r : Request) (u : Z) (api : API InMemoryDatabase C) :
  expenses (db (postExpenses parseRFC3339 order now w r u api).2)
  = expenses (db api)
  ∨ ∃ e stored,
      Body r = Some e
      ∧ expenses (db (postExpenses parseRFC3339 order now w r u api).2)
        = expenses (db api) ++ [stored]
      ∧ OwnerID stored = u
      ∧ Amount stored = req_Amount e
      ∧ Users stored = req_Users e ++ [u]
      ∧ (0 < req_Amount e)%Qc
      ∧ req_Users e ≠ [] ∧ NoDup (req_Users e) ∧ (u ∉ req_Users e).
Proof.
  unfold postExpenses.
  destruct (Body r) as [e|]; [|by left].
  case_bool_decide as Hd; [by left|].
  destruct (decide (req_Amount e ≤ 0)%Qc) as [Ha|Ha]; [by left|].
  destruct (parseRFC3339 (req_CreatedAt e)) as [t|] eqn:Ht; [|by left].
  case_bool_decide as Hlen; [by left|].
  destruct (checkUsers u ∅ (req_Users e)) as [message|] eqn:Hcheck; [by left|].
  apply checkUsers_empty_None in Hcheck as [Hself Hnd].
  right. eexists e, _. split; [done|]. cbn.
  split; [reflexivity|]. cbn.
  split; [done|]. split; [done|]. split; [done|].
  split; [by apply Qcnot_le_lt|].
  split; [intros Hnil; rewrite Hnil in Hlen; cbn in Hlen; lia|done].
Qed.

(** An expense as the endpoint stores it: a positive amount, and as users a
    non-empty duplicate-free list of others, none of them the owner, followed
    by the owner. *)
Lemma postExpenses_store_wf {C : Type} `{!Cache C}
    (parseRFC3339 : string → option Z)
    (order : RangeOrder) (now : Z) (w : ResponseWriter)
    (r : Request) (u : Z) (api : API InMemoryDatabase C) (x : Expense) :
  x ∈ expenses (db (postExpenses parseRFC3339 order now w r u api).2) →
  x ∈ expenses (db api)
  ∨ (0 < Amount x)%Qc
    ∧ ∃ others, Users x = others ++ [OwnerID x]
                ∧ others ≠ [] ∧ NoDup others ∧ (OwnerID x ∉ others).
Proof.
  intros Hx.
  destruct (postExpenses_store parseRFC3339 order now w r u api)
    as [Heq|(e & stored & _ & Heq & Ho & Ha & Hu & Hpos & Hne & Hnd & Hself)];
    rewrite Heq in Hx; [by left|].
  apply elem_of_app in Hx as [Hx|Hx]; [by left|].
  apply list_elem_of_singleton in Hx as ->. right.
  split; [by rewrite Ha|]. exists (req_Users e). by rewrite Ho, Hu.
Qed.

(** C6: for a valid request of user [u] the handler answers 201, the store
    grows by the new expense (with [u] appended to its users and the next
    identifier), the cache entry of [u] becomes [CalculateBalance] of the
    expenses read from the store after the append, and the cache entry of
    every other user stays as it was; this for the in-memory cache and for
    the Redis cache. *)
Theorem postExpenses_write_through {Json : Type}
    (marshal : Balance → Json) (unmarshal : Json → option Balance)
    (parseRFC3339 : string → option Z)
    (order : RangeOrder) (now : Z) (w : ResponseWriter) (r : Request) (u : Z)
    (e : createExpenseRequest) (createdAt : Z)
    (store : InMemoryDatabase) (mem : InMemoryCache) (red : RedisCache Json) :
  Method r = "POST" →
  Code w = None →
  Body r = Some e →
  req_Description e ≠ "" →
  (0 < req_Amount e)%Qc →
  parseRFC3339 (req_CreatedAt e) = Some createdAt →
  req_Users e ≠ [] →
  u ∉ req_Users e →
  NoDup (req_Users e) →
  let stored :=
    {| ExpenseID := Z.of_nat (length (expenses store)) + 1; OwnerID := u;
       Users := req_Users e ++ [u]; Amount := req_Amount e;
       Description := req_Description e; CreatedAt := createdAt |} in
  let out := postExpenses parseRFC3339 order now w r u
               {| db := store; cache := mem |} in
  let out' := postExpenses (Cache0 := RedisCache_Cache marshal unmarshal)
                parseRFC3339 order now w r u {| db := store; cache := red |} in
  (Code out.1 = Some StatusCreated
   ∧ expenses (db out.2) = expenses store ++ [stored]
   ∧ entries (cache out.2) !! u
     = Some (CalculateBalance order (GetExpenses u (db out.2)) u)
   ∧ stored ∈ GetExpenses u (db out.2)
   ∧ ∀ v, v ≠ u → entries (cache out.2) !! v = entries mem !! v)
  ∧ (Code out'.1 = Some StatusCreated
     ∧ expenses (db out'.2) = expenses store ++ [stored]
     ∧ rdb (cache out'.2) !! makeKey u
       = Some (marshal (CalculateBalance order (GetExpenses u (db out'.2)) u),
               now + cacheEntryTTL)
     ∧ stored ∈ GetExpenses u (db out'.2)
     ∧ ∀ v, v ≠ u → rdb (cache out'.2) !! makeKey v = rdb red !! makeKey v).
Proof.
  intros Hm Hw Hb Hd Ha Ht Hne Hself Hnd stored out out'.
  unfold out, out'.
  rewrite !(postExpenses_valid parseRFC3339 order now w r u _ e createdAt)
    by done.
  cbn [fst snd db cache]. unfold WriteHeader. cbn [Code]. rewrite Hw.
  split.
  - split; [done|]. split; [done|]. split.
    { cbn [SetBalance InMemoryCache_Cache]. unfold InMemoryCache_SetBalance.
      cbn [entries]. apply lookup_insert_eq. }
    split.
    { unfold GetExpenses, CreateExpense. cbn [expenses].
      apply elem_of_app. right. apply list_elem_of_here. }
    intros v Hv. cbn [SetBalance InMemoryCache_Cache].
    unfold InMemoryCache_SetBalance. cbn [entries].
    by rewrite lookup_insert_ne.
  - split; [done|]. split; [done|]. split.
    { cbn [SetBalance RedisCache_Cache].
      unfold RedisCache_SetBalance, setBalanceWithRdb, redisSet. cbn [rdb].
      apply lookup_insert_eq. }
    split.
    { unfold GetExpenses, CreateExpense. cbn [expenses].
      apply elem_of_app. right. apply list_elem_of_here. }
    intros v Hv. cbn [SetBalance RedisCache_Cache].
    unfold RedisCache_SetBalance, setBalanceWithRdb, redisSet. cbn [rdb].
    rewrite lookup_insert_ne; [done|]. intros Heq. by apply makeKey_inj in Heq.
Qed.

(** The request of the endpoint test is answered by 201. *)
Lemma postExpenses_write_through_witness :
  Code (postExpenses (λ _, Some 0) map_to_list 0 NewRecorder foodRequest 1
          {| db := NewInMemoryDatabase; cache := NewInMemoryCache |}).1
  = Some StatusCreated.
Proof.
  refine (proj1 (proj1
    (postExpenses_write_through (Json := Balance) id Some (λ _, Some 0)
       map_to_list 0 NewRecorder foodRequest 1
       {| req_Description := "Food"; req_Amount := float64 42;
          req_CreatedAt := "2021-01-01T15:04:05Z"; req_Users := [2; 3] |}
       0 NewInMemoryDatabase NewInMemoryCache {| rdb := ∅ |}
       _ _ _ _ _ _ _ _ _))).
  - reflexivity.
  - reflexivity.
  - reflexivity.
  - done.
  - by vm_compute.
  - reflexivity.
  - done.
  - by_evaluation.
  - by_evaluation.
Defined.

(** C7: a request whose amount is not strictly positive, whose list of other
    users is empty, holds the submitter or holds a user twice, whose
    description is empty or whose [created_at] does not parse, leaves the
    store and the cache as they were and, sent by POST, is answered by 400.
    Whatever the request, the store is left as it was or grows by one expense
    of the submitter with a positive amount whose users are the others of the
    request, a non-empty duplicate-free list without the submitter, followed
    by the submitter.  So every expense of a store that the endpoint filled
    has a positive amount, and as users a non-empty duplicate-free list of
    others, none of them the owner, followed by the owner: each member once. *)
Theorem postExpenses_validation {C : Type} `{!Cache C}
    (parseRFC3339 : string → option Z) :
  (∀ order now w r u (api : API InMemoryDatabase C) e,
     Body r = Some e →
     req_Description e = "" ∨ (req_Amount e ≤ 0)%Qc
     ∨ parseRFC3339 (req_CreatedAt e) = None ∨ req_Users e = []
     ∨ u ∈ req_Users e ∨ ¬ NoDup (req_Users e) →
     (postExpenses parseRFC3339 order now w r u api).2 = api
     ∧ (Method r = "POST" → Code w = None →
        Code (postExpenses parseRFC3339 order now w r u api).1
        = Some StatusBadRequest))
  ∧ (∀ order now w r u (api : API InMemoryDatabase C),
       expenses (db (postExpenses parseRFC3339 order now w r u api).2)
       = expenses (db api)
       ∨ ∃ e stored,
           Body r = Some e
           ∧ expenses (db (postExpenses parseRFC3339 order now w r u api).2)
             = expenses (db api) ++ [stored]
           ∧ OwnerID stored = u
           ∧ Amount stored = req_Amount e
           ∧ Users stored = req_Users e ++ [u]
           ∧ (0 < req_Amount e)%Qc
           ∧ req_Users e ≠ [] ∧ NoDup (req_Users e) ∧ (u ∉ req_Users e))
  ∧ (∀ (api : API InMemoryDatabase C) x,
       served parseRFC3339 api → x ∈ expenses (db api) →
       (0 < Amount x)%Qc
       ∧ NoDup (Users x)
       ∧ ∃ others, Users x = others ++ [OwnerID x]
                   ∧ others ≠ [] ∧ NoDup others ∧ (OwnerID x ∉ others)).
Proof.
  split; [|split].
  - intros order now w r u api e Hb Hbad.
    destruct (postExpenses_invalid parseRFC3339 order now w r u api e Hb Hbad)
      as [message ->].
    split; [done|]. intros Hm Hw. rewrite Hm.
    rewrite (bool_decide_eq_false_2 ("POST" ≠ "POST")) by (intros H; by apply H).
    by apply Code_writeError.
  - intros order now w r u api. apply postExpenses_store.
  - intros api x Hserved. revert x.
    induction Hserved as [c|order now w r u api _ IH]; intros x Hx.
    + by apply elem_of_nil in Hx.
    + apply postExpenses_store_wf in Hx as [Hx|(Hpos & others & Hu & Hwf)];
        [by apply IH|].
      split; [done|]. split; [|by exists others].
      destruct Hwf as (_ & Hnd & Hself). rewrite Hu.
      apply NoDup_app. split; [done|]. split; [|apply NoDup_singleton].
      by intros y Hy ->%list_elem_of_singleton.
Qed.

(** ** Further properties of the ledger *)

(** *** The entries of a row in closed form *)

Lemma amountsAt_cons (a b : Z) (p : Z * Z * Qc) (ps : list (Z * Z * Qc)) :
  amountsAt a b (p :: ps)
  = if decide (p.1.1 = a ∧ p.1.2 = b) then p.2 :: amountsAt a b ps
    else amountsAt a b ps.
Proof. unfold amountsAt. rewrite filter_cons. by case_decide. Qed.

Lemma amountsAt_app (a b : Z) (ps qs : list (Z * Z * Qc)) :
  amountsAt a b (ps ++ qs) = amountsAt a b ps ++ amountsAt a b qs.
Proof. unfold amountsAt. by rewrite filter_app, fmap_app. Qed.

Lemma amountsAt_bind {A} (a b : Z) (f : A → list (Z * Z * Qc)) (l : list A) :
  amountsAt a b (l ≫= f) = l ≫= (λ x, amountsAt a b (f x)).
Proof.
  induction l as [|x l IH]; [done|].
  by rewrite !bind_cons, amountsAt_app, IH.
Qed.

Lemma lookup_post (d : DebtsMap) (p : Z * Z * Qc) (a b : Z) :
  row (post d p) a !! b
  = if decide (p.1.1 = a ∧ p.1.2 = b)
    then Some (default 0 (row d a !! b) + p.2)%Qc
    else row d a !! b.
Proof.
  unfold post. rewrite lookup_incr.
  destruct (decide (p.1.1 = a)) as [Ha|Ha].
  - subst a. destruct (decide (p.1.2 = b)) as [Hb|Hb].
    + subst b. rewrite decide_True by done. apply lookup_insert_eq.
    + rewrite decide_False by tauto. by apply lookup_insert_ne.
  - by rewrite decide_False by tauto.
Qed.

Lemma lookup_fold_post (ps : list (Z * Z * Qc)) (d : DebtsMap) (a b : Z) :
  row (fold_left post ps d) a !! b
  = if decide (amountsAt a b ps = []) then row d a !! b
    else Some (default 0 (row d a !! b) + sumQc (amountsAt a b ps))%Qc.
Proof.
  revert d. induction ps as [|p ps IH]; intros d; [done|].
  cbn [fold_left]. rewrite IH, lookup_post, amountsAt_cons.
  destruct (decide (p.1.1 = a ∧ p.1.2 = b)) as [Hp|Hp].
  - rewrite (decide_False (P := _ :: _ = [])) by done.
    rewrite sumQc_cons. cbn [default from_option id].
    destruct (decide (amountsAt a b ps = [])) as [->|_].
    + f_equal. change (sumQc []) with 0%Qc. ring.
    + f_equal. ring.
  - done.
Qed.

Lemma lookup_userDebts (es : list Expense) (u v : Z) :
  userDebts es u !! v
  = if decide (amountsAt u v (es ≫= postingsFor u) = []) then None
    else Some (sumQc (amountsAt u v (es ≫= postingsFor u))).
Proof.
  unfold userDebts. rewrite accumulate_debts.
  change (default ∅ (?d !! u)) with (row d u).
  rewrite lookup_fold_post. unfold row at 1 2. rewrite lookup_empty.
  cbn [default from_option id]. rewrite lookup_empty.
  case_decide; [done|]. f_equal. cbn. ring.
Qed.

Lemma elem_of_postings (e : Expense) (a b : Z) (x : Qc) :
  (a, b, x) ∈ postings e →
  a ≠ b ∧ ((a ∈ Users e ∧ b = OwnerID e) ∨ (a = OwnerID e ∧ b ∈ Users e)).
Proof.
  unfold postings. intros (eu & Hp & Heu)%list_elem_of_bind.
  unfold postingsOf in Hp. case_bool_decide as Ho; [by apply elem_of_nil in Hp|].
  apply elem_of_cons in Hp as [Hp|Hp].
  - injection Hp as -> -> _. split; [done|]. by left.
  - apply list_elem_of_singleton in Hp. injection Hp as -> -> _.
    split; [congruence|]. by right.
Qed.

Lemma amountsAt_nonempty (a b : Z) (ps : list (Z * Z * Qc)) :
  amountsAt a b ps ≠ [] → ∃ x, (a, b, x) ∈ ps.
Proof.
  unfold amountsAt. intros Hne.
  destruct (filter _ ps) as [|[[a' b'] x] l] eqn:Hf; [done|].
  assert ((a', b', x) ∈ filter (λ p, p.1.1 = a ∧ p.1.2 = b) ps) as Hin.
  { rewrite Hf. apply list_elem_of_here. }
  apply list_elem_of_filter in Hin as [[Ha Hb] Hin]. cbn in Ha, Hb. subst.
  by exists x.
Qed.

(** X1: a user who is in the [Users] of no expense gets the zero balance
    with empty debit and credit lists; so does every user on an empty list. *)
Theorem CalculateBalance_no_participation (order : RangeOrder)
    (es : list Expense) (u : Z) :
  rangeOrder_ok order →
  (∀ e, e ∈ es → u ∉ Users e) →
  CalculateBalance order es u
  = {| Balance_Balance := 0%Qc; Debit := []; Credit := [] |}.
Proof.
  intros Hord Hout.
  assert (accumulate es u = (0%Qc, ∅)) as Hacc.
  { rewrite <- accumulate_filter.
    replace (filter (λ e, u ∈ Users e) es) with (@nil Expense); [done|].
    symmetry. induction es as [|e es IH]; [done|].
    rewrite filter_cons, decide_False by (apply Hout, list_elem_of_here).
    apply IH. intros e' He'. by apply Hout, list_elem_of_further. }
  unfold CalculateBalance, userDebts. rewrite Hacc. cbn [fst snd].
  rewrite lookup_empty. cbn [default from_option id].
  pose proof (Hord ∅) as Hnil. rewrite map_to_list_empty in Hnil.
  apply Permutation_nil_r in Hnil. by rewrite Hnil.
Qed.

(** The coffee does not name user 3. *)
Lemma CalculateBalance_no_participation_witness :
  CalculateBalance map_to_list [coffee] 3
  = {| Balance_Balance := 0%Qc; Debit := []; Credit := [] |}.
Proof.
  apply (CalculateBalance_no_participation map_to_list [coffee] 3
           rangeOrder_ok_map_to_list).
  intros e ->%list_elem_of_singleton. by_evaluation.
Defined.

(** X2: every entry of the debit and of the credit list of a user names
    another user, never the user itself, and comes from an expense that the
    user shares and that one of the two paid: the counterparty paid it, or the
    user paid it and the counterparty shares it. *)
Theorem CalculateBalance_counterparties (order : RangeOrder)
    (es : list Expense) (u : Z) (d : Debt) :
  rangeOrder_ok order →
  d ∈ Debit (CalculateBalance order es u)
  ∨ d ∈ Credit (CalculateBalance order es u) →
  Debt_UserID d ≠ u
  ∧ ∃ e, e ∈ es ∧ u ∈ Users e
         ∧ (OwnerID e = Debt_UserID d
            ∨ (OwnerID e = u ∧ Debt_UserID d ∈ Users e)).
Proof.
  intros Hord Hd.
  assert (is_Some (userDebts es u !! Debt_UserID d)) as Hsome.
  { destruct Hd as [Hd|Hd].
    - rewrite CalculateBalance_Debit in Hd.
      apply elem_of_debitOf in Hd as [Hd _]. rewrite (Hord _) in Hd.
      apply elem_of_map_to_list in Hd. by eexists.
    - rewrite CalculateBalance_Credit in Hd.
      apply elem_of_creditOf in Hd as (a & Hd & _). rewrite (Hord _) in Hd.
      apply elem_of_map_to_list in Hd. by eexists. }
  rewrite lookup_userDebts in Hsome.
  case_decide as Hne; [by destruct Hsome|].
  apply amountsAt_nonempty in Hne as [x Hx].
  apply list_elem_of_bind in Hx as (e & Hx & He).
  unfold postingsFor in Hx.
  destruct (userTookPart (Users e) u) eqn:Htook; [|by apply elem_of_nil in Hx].
  apply userTookPart_true in Htook.
  apply elem_of_postings in Hx as [Hneq Hx].
  split; [congruence|]. exists e. split; [done|]. split; [done|].
  destruct Hx as [[_ Ho]|[Ho Hin]]; [by left|by right].
Qed.

(** User 2 is in the credit list of user 1 after the meal. *)
Lemma CalculateBalance_counterparties_witness :
  2 ≠ 1
  ∧ ∃ e, e ∈ [meal] ∧ 1 ∈ Users e
         ∧ (OwnerID e = 2 ∨ (OwnerID e = 1 ∧ 2 ∈ Users e)).
Proof.
  apply (CalculateBalance_counterparties map_to_list [meal] 1
           (mkDebt 2 (float64 14)) rangeOrder_ok_map_to_list).
  right. by_evaluation.
Defined.

(** *** Both sides of a debt *)

Lemma amountsAt_postingsFor (es : list Expense) (u v : Z) :
  (∀ e, e ∈ es → OwnerID e ∈ Users e) →
  amountsAt u v (es ≫= postingsFor u) = amountsAt u v (es ≫= postings).
Proof.
  intros Hown. induction es as [|e es IH]; [done|].
  rewrite !bind_cons, !amountsAt_app, IH.
  2:{ intros e' He'. by apply Hown, list_elem_of_further. }
  f_equal. unfold postingsFor.
  destruct (userTookPart (Users e) u) eqn:Htook; [done|].
  apply userTookPart_false in Htook.
  destruct (decide (amountsAt u v (postings e) = [])) as [->|Hne]; [done|].
  apply amountsAt_nonempty in Hne as [x Hx].
  apply elem_of_postings in Hx as [_ [[Hin _]|[-> _]]]; [done|].
  destruct Htook. apply Hown, list_elem_of_here.
Qed.

Lemma bind_fmap_Qcopp {A} (f g : A → list Qc) (l : list A) :
  (∀ x, g x = Qcopp <$> f x) → l ≫= g = Qcopp <$> (l ≫= f).
Proof.
  intros Hfg. induction l as [|x l IH]; [done|].
  by rewrite !bind_cons, fmap_app, IH, Hfg.
Qed.

Lemma amountsAt_postingsOf_swap (o : Z) (p : Qc) (eu u v : Z) :
  amountsAt v u (postingsOf o p eu) = Qcopp <$> amountsAt u v (postingsOf o p eu).
Proof.
  unfold postingsOf. case_bool_decide as Ho; [done|].
  rewrite !amountsAt_cons. cbn [fst snd]. unfold amountsAt.
  rewrite !filter_nil, !fmap_nil.
  repeat case_decide; try done; destruct_and?; subst; try done;
    try (exfalso; intuition congruence).
  by rewrite fmap_cons, Qcopp_involutive.
Qed.

Lemma amountsAt_postings_swap (es : list Expense) (u v : Z) :
  amountsAt v u (es ≫= postings) = Qcopp <$> amountsAt u v (es ≫= postings).
Proof.
  rewrite !amountsAt_bind. apply bind_fmap_Qcopp. intros e.
  unfold postings. rewrite !amountsAt_bind. apply bind_fmap_Qcopp. intros eu.
  apply amountsAt_postingsOf_swap.
Qed.

Lemma sumQc_Qcopp (l : list Qc) : sumQc (Qcopp <$> l) = (- sumQc l)%Qc.
Proof.
  induction l as [|x l IH].
  - change (0 = - 0)%Qc. ring.
  - rewrite fmap_cons, !sumQc_cons, IH. ring.
Qed.

(** What [v] owes [u] in the computation for [v] is the opposite of what [u]
    owes [v] in the computation for [u], where every owner shares the own
    expense. *)
Lemma userDebts_antisymmetric (es : list Expense) (u v : Z) :
  (∀ e, e ∈ es → OwnerID e ∈ Users e) →
  userDebts es v !! u = Qcopp <$> userDebts es u !! v.
Proof.
  intros Hown. rewrite !lookup_userDebts, !amountsAt_postingsFor by done.
  rewrite (amountsAt_postings_swap es u v).
  destruct (amountsAt u v (es ≫= postings)) as [|x l]; [done|].
  rewrite !decide_False by done. cbn [fmap option_fmap option_map].
  by rewrite sumQc_Qcopp.
Qed.

(** X3: where every owner is among the [Users] of the own expense, a debit
    of [u] to [v] is matched by a credit of the same amount from [u] in the
    result for [v], and every credit of a positive amount by such a debit,
    whatever the orders in which the two calls range over the debts. *)
Theorem CalculateBalance_matching_credit (order order' : RangeOrder)
    (es : list Expense) (u v : Z) (x : Qc) :
  rangeOrder_ok order → rangeOrder_ok order' →
  (∀ e, e ∈ es → OwnerID e ∈ Users e) →
  mkDebt v x ∈ Debit (CalculateBalance order es u)
  ↔ mkDebt u x ∈ Credit (CalculateBalance order' es v) ∧ (0 < x)%Qc.
Proof.
  intros Hord Hord' Hown.
  rewrite CalculateBalance_Debit, CalculateBalance_Credit.
  rewrite elem_of_debitOf, elem_of_creditOf. cbn [Debt_UserID Debt_Amount mkDebt].
  pose proof (userDebts_antisymmetric es u v Hown) as Hanti.
  setoid_rewrite (Hord' _). rewrite (Hord _).
  setoid_rewrite elem_of_map_to_list. split.
  - intros [Huv Hpos]. rewrite Huv in Hanti. split; [|done].
    exists (- x)%Qc. split; [done|]. split; [|by rewrite Qcopp_involutive].
    intros Hneg. apply (irreflexivity Qclt 0%Qc).
    pose proof (Qcplus_pos_pos _ _ Hpos Hneg) as Hsum.
    by replace (x + - x)%Qc with 0%Qc in Hsum by ring.
  - intros [(a & Hvu & _ & ->) Hpos]. split; [|done].
    rewrite Hvu in Hanti.
    destruct (userDebts es u !! v) as [a'|]; [|done].
    injection Hanti as ->. by rewrite Qcopp_involutive.
Qed.

(** After the meal and the coffee user 2 owes user 1 the amount 10. *)
Lemma CalculateBalance_matching_credit_witness :
  mkDebt 2 (float64 10) ∈ Credit (CalculateBalance map_to_list [meal; coffee] 1)
  ∧ (0 < float64 10)%Qc.
Proof.
  apply (CalculateBalance_matching_credit map_to_list map_to_list
           [meal; coffee] 2 1 (float64 10)
           rangeOrder_ok_map_to_list rangeOrder_ok_map_to_list).
  - intros e He. apply (bool_decide_unpack _).
    apply elem_of_cons in He as [->|He]; [by vm_compute|].
    apply list_elem_of_singleton in He as ->. by vm_compute.
  - by_evaluation.
Defined.

(** ** Properties of the helpers of the ledger test *)




Lemma debtsEqual_true (order : RangeOrder) (a b : list Debt) :
  rangeOrder_ok order →
  debtsEqual order a b = true
  ↔ size (makeOweMap a) = size (makeOweMap b)
    ∧ ∀ k v, makeOweMap a !! k = Some v → default 0%Qc (makeOweMap b !! k) = v.
Proof.
  intros Hord. unfold debtsEqual. case_bool_decide as Hsize.
  - split; [done|]. by intros [? _].
  - rewrite <- Is_true_true, forallb_True, Forall_forall.
    split.
    + intros Hall. split; [done|]. intros k v Hkv.
      apply elem_of_map_to_list in Hkv. rewrite <- (Hord _) in Hkv.
      specialize (Hall _ Hkv). cbn [fst snd] in Hall.
      apply negb_prop_elim in Hall. rewrite bool_decide_spec in Hall.
      by apply dec_stable in Hall.
    + intros [_ Hall] [k v] Hkv. rewrite (Hord _) in Hkv.
      apply elem_of_map_to_list in Hkv. cbn [fst snd].
      apply negb_prop_intro. rewrite bool_decide_spec.
      intros Hne. by apply Hne, Hall.
Qed.

(** X4: [debtsEqual] holds exactly when the two maps made of the slices have
    the same size and every entry of the first map is what the second map
    reads under its key, a missing key reading as 0.  Where no amount in the
    first map is 0 this is equality of the two maps.  With an amount 0 it is
    not: an entry of amount 0 equals any entry under another key. *)
Theorem debtsEqual_spec (order : RangeOrder) (a b : list Debt) :
  rangeOrder_ok order →
  (debtsEqual order a b = true
   ↔ size (makeOweMap a) = size (makeOweMap b)
     ∧ ∀ k v, makeOweMap a !! k = Some v → default 0%Qc (makeOweMap b !! k) = v)
  ∧ ((∀ k, makeOweMap a !! k ≠ Some 0%Qc) →
     debtsEqual order a b = true ↔ makeOweMap a = makeOweMap b)
  ∧ (∀ k k' x, k ≠ k' →
       debtsEqual order [mkDebt k 0%Qc] [mkDebt k' x] = true
       ∧ makeOweMap [mkDebt k 0%Qc] ≠ makeOweMap [mkDebt k' x]).
Proof.
  intros Hord. split; [by apply debtsEqual_true|]. split.
  - intros Hnz. rewrite debtsEqual_true by done. split.
    + intros [Hsize Hall]. apply map_subseteq_size_eq; [|lia].
      apply map_subseteq_spec. intros k v Hkv.
      specialize (Hall k v Hkv).
      destruct (makeOweMap b !! k) as [v'|]; cbn in Hall; [by subst|].
      subst v. by destruct (Hnz k).
    + intros <-. split; [done|]. intros k v ->. done.
  - intros k k' x Hne. split.
    + apply debtsEqual_true; [done|]. unfold makeOweMap. cbn.
      rewrite !insert_empty, !map_size_singleton. split; [done|].
      intros j v Hj. apply lookup_singleton_Some in Hj as [<- <-].
      by rewrite lookup_singleton_ne.
    + unfold makeOweMap. cbn. rewrite !insert_empty. intros Heq.
      assert (({[k := 0%Qc]} : gmap Z Qc) !! k = Some 0%Qc) as Hk
        by apply lookup_singleton_eq.
      rewrite Heq, lookup_singleton_ne in Hk by done. done.
Qed.

(** A debit of 10 to user 1 is not a debit of 14 to user 1. *)
Lemma debtsEqual_spec_witness :
  debtsEqual map_to_list [mkDebt 1 (float64 10)] [mkDebt 1 (float64 14)] = true
  ↔ makeOweMap [mkDebt 1 (float64 10)] = makeOweMap [mkDebt 1 (float64 14)].
Proof.
  apply (debtsEqual_spec map_to_list [mkDebt 1 (float64 10)]
           [mkDebt 1 (float64 14)] rangeOrder_ok_map_to_list).
  intros k Hk. unfold makeOweMap in Hk. cbn in Hk. rewrite insert_empty in Hk.
  apply lookup_singleton_Some in Hk as [_ Hk]. revert Hk. by_evaluation.
Defined.



(** ** Properties of the in-memory database *)

Lemma emailTaken_spec (email : string) (us : list userWithPassword) :
  existsb (λ u, bool_decide (Email u = email)) us = true ↔ email ∈ Email <$> us.
Proof.
  induction us as [|u us IH]; cbn [existsb].
  - rewrite fmap_nil. split; [done|]. by intros ?%elem_of_nil.
  - rewrite fmap_cons, elem_of_cons, orb_true_iff, IH, bool_decide_eq_true.
    split; intros [?|?]; auto.
Qed.

Lemma CreateUser_taken (email password : string) (db : InMemoryDatabase) :
  email ∈ Email <$> users db →
  CreateUser email password db = ((0, Some ErrDuplicate), db).
Proof.
  intros Hin. cbn [CreateUser InMemoryDatabase_UserHandle].
  unfold InMemoryHandle_CreateUser.
  by rewrite (proj2 (emailTaken_spec email (users db)) Hin).
Qed.

Lemma CreateUser_fresh (email password : string) (db : InMemoryDatabase) :
  email ∉ Email <$> users db →
  CreateUser email password db
  = ((Z.of_nat (length (users db)) + 1, None),
     {| users := users db ++ [{| ID := 0; Email := email; Password := password |}];
        expenses := expenses db |}).
Proof.
  intros Hout. cbn [CreateUser InMemoryDatabase_UserHandle].
  unfold InMemoryHandle_CreateUser.
  destruct (existsb _ (users db)) eqn:Hex; [|done].
  by apply emailTaken_spec in Hex.
Qed.

Lemma populated_emails (db : InMemoryDatabase) :
  populated db → NoDup (Email <$> users db).
Proof.
  induction 1 as [|email password db _ IH|expense db _ IH].
  - apply NoDup_nil_2.
  - destruct (decide (email ∈ Email <$> users db)) as [Hin|Hout].
    + by rewrite CreateUser_taken.
    + rewrite CreateUser_fresh by done. cbn [snd users].
      rewrite fmap_app. apply NoDup_app. split; [done|].
      split; [|apply NoDup_singleton].
      intros x Hx ->%list_elem_of_singleton. done.
  - done.
Qed.

(** X6: in an in-memory database that started empty no two users have the
    same email: [CreateUser] with an email that is taken returns the id 0 and
    [ErrDuplicate] and leaves the database as it was; with a new email it
    returns the number of users plus one and no error, appends the user and
    leaves the expenses as they were. *)
Theorem CreateUser_unique_emails (db : InMemoryDatabase) (email password : string) :
  populated db →
  NoDup (Email <$> users db)
  ∧ (email ∈ Email <$> users db →
     CreateUser email password db = ((0, Some ErrDuplicate), db))
  ∧ (email ∉ Email <$> users db →
     (CreateUser email password db).1 = (Z.of_nat (length (users db)) + 1, None)
     ∧ Email <$> users (CreateUser email password db).2
       = (Email <$> users db) ++ [email]
     ∧ expenses (CreateUser email password db).2 = expenses db)
  ∧ NoDup (Email <$> users (CreateUser email password db).2).
Proof.
  intros Hpop. split; [by apply populated_emails|].
  split; [apply CreateUser_taken|]. split.
  - intros Hout. rewrite CreateUser_fresh by done. cbn [fst snd users expenses].
    by rewrite fmap_app.
  - apply populated_emails. by constructor.
Qed.

(** Registering one address twice in an empty database. *)
Lemma CreateUser_unique_emails_witness :
  CreateUser "test1@getstream.io" "secret"
    (CreateUser "test1@getstream.io" "secret" NewInMemoryDatabase).2
  = ((0, Some ErrDuplicate),
     (CreateUser "test1@getstream.io" "secret" NewInMemoryDatabase).2).
Proof.
  apply (CreateUser_unique_emails
           (CreateUser "test1@getstream.io" "secret" NewInMemoryDatabase).2
           "test1@getstream.io" "secret").
  - apply populated_user, populated_new.
  - by_evaluation.
Defined.

Lemma GetUsers_snoc (db : InMemoryDatabase) (email password : string) :
  GetUsers {| users := users db ++ [{| ID := 0; Email := email;
                                       Password := password |}];
              expenses := expenses db |}
  = GetUsers db
    ++ [{| User_ID := Z.of_nat (length (users db)) + 1; User_Email := email |}].
Proof.
  cbn [GetUsers InMemoryDatabase_UserHandle]. unfold InMemoryHandle_GetUsers.
  cbn [users]. rewrite imap_app. cbn [imap Email]. by rewrite Nat.add_0_r.
Qed.

Lemma elem_of_GetUsers (db : InMemoryDatabase) (id : Z) (email : string) :
  {| User_ID := id; User_Email := email |} ∈ GetUsers db
  ↔ ∃ i, (Email <$> users db) !! i = Some email ∧ id = Z.of_nat i + 1.
Proof.
  cbn [GetUsers InMemoryDatabase_UserHandle]. unfold InMemoryHandle_GetUsers.
  rewrite elem_of_lookup_imap. split.
  - intros (i & u & Heq & Hu). injection Heq as -> ->. exists i.
    by rewrite list_lookup_fmap, Hu.
  - intros (i & Hi & ->). rewrite list_lookup_fmap in Hi.
    destruct (users db !! i) as [u|] eqn:Hu; [|done]. injection Hi as <-.
    by exists i, u.
Qed.

(** X7: in an in-memory database that started empty, the id that a
    successful [CreateUser] returns is the id under which [GetUsers] then
    lists the email, and the only one; the users listed before keep their ids
    and the ids listed are 1, 2, ... in order. *)
Theorem CreateUser_GetUsers (db db' : InMemoryDatabase)
    (email password : string) (id : Z) :
  populated db →
  CreateUser email password db = ((id, None), db') →
  GetUsers db' = GetUsers db ++ [{| User_ID := id; User_Email := email |}]
  ∧ (∀ id', {| User_ID := id'; User_Email := email |} ∈ GetUsers db' → id' = id)
  ∧ User_ID <$> GetUsers db'
    = (λ i, Z.of_nat i + 1) <$> seq 0 (length (users db')).
Proof.
  intros Hpop Hcreate.
  assert (populated db') as Hpop'.
  { replace db' with (CreateUser email password db).2 by by rewrite Hcreate.
    by constructor. }
  destruct (decide (email ∈ Email <$> users db)) as [Hin|Hout].
  { by rewrite CreateUser_taken in Hcreate. }
  rewrite CreateUser_fresh in Hcreate by done.
  injection Hcreate as <- <-.
  split; [apply GetUsers_snoc|]. split.
  - intros id' Hid'. apply elem_of_GetUsers in Hid' as (i & Hi & ->).
    pose proof (populated_emails _ Hpop') as Hnd.
    assert ((Email <$> users db ++ [{| ID := 0; Email := email;
                                       Password := password |}])
              !! length (users db) = Some email) as Hlast.
    { rewrite fmap_app. cbn [fmap list_fmap Email].
      rewrite <- (length_fmap Email (users db)). apply list_lookup_middle. done. }
    cbn [users] in *. by rewrite (NoDup_lookup _ _ _ _ Hnd Hi Hlast).
  - cbn [GetUsers InMemoryDatabase_UserHandle]. unfold InMemoryHandle_GetUsers.
    rewrite fmap_imap. apply (imap_seq_0 _ (λ i, Z.of_nat i + 1)).
Qed.

(** The first user of an empty database gets and keeps the id 1. *)
Lemma CreateUser_GetUsers_witness :
  GetUsers (CreateUser "test1@getstream.io" "secret" NewInMemoryDatabase).2
  = GetUsers NewInMemoryDatabase
    ++ [{| User_ID := 1; User_Email := "test1@getstream.io" |}].
Proof.
  apply (CreateUser_GetUsers NewInMemoryDatabase
           (CreateUser "test1@getstream.io" "secret" NewInMemoryDatabase).2
           "test1@getstream.io" "secret" 1 populated_new).
  reflexivity.
Defined.

(** X8: in an in-memory database that started empty the expenses carry the
    ids 1, 2, ... in the order in which they were created, so no two expenses
    have the same id, whatever id the caller of [CreateExpense] passed. *)
Theorem CreateExpense_ids (db : InMemoryDatabase) :
  populated db →
  (∀ i e, expenses db !! i = Some e → ExpenseID e = Z.of_nat i + 1)
  ∧ NoDup (ExpenseID <$> expenses db).
Proof.
  intros Hpop.
  assert (ExpenseID <$> expenses db
          = (λ i, Z.of_nat i + 1) <$> seq 0 (length (expenses db))) as Hids.
  { induction Hpop as [|email password db _ IH|expense db _ IH].
    - done.
    - destruct (decide (email ∈ Email <$> users db)) as [Hin|Hout].
      + by rewrite CreateUser_taken.
      + by rewrite CreateUser_fresh.
    - cbn [CreateExpense InMemoryDatabase_Database].
      unfold InMemoryHandle_CreateExpense. cbn [expenses ExpenseID].
      by rewrite fmap_app, length_app, seq_app, fmap_app, IH. }
  split.
  - intros i e He.
    assert ((ExpenseID <$> expenses db) !! i = Some (ExpenseID e)) as Hi
      by by rewrite list_lookup_fmap, He.
    rewrite Hids, list_lookup_fmap in Hi.
    apply lookup_lt_Some in He.
    rewrite lookup_seq_lt in Hi by done. cbn in Hi. by injection Hi as <-.
  - rewrite Hids. apply NoDup_fmap_2; [|apply NoDup_seq].
    intros i j Hij. lia.
Qed.

(** The coffee in the store of one coffee has the id 1. *)
Lemma CreateExpense_ids_witness :
  NoDup (ExpenseID <$> expenses oneCoffee).
Proof.
  apply (CreateExpense_ids oneCoffee).
  apply (populated_expense _ NewInMemoryDatabase), populated_new.
Defined.

(** ** Further properties of the caches *)

Lemma redisGet_redisSet_expired {Json} (now now' : Z) (key : string)
    (value : Json) (ttl : Z) (r : RedisCache Json) :
  now + ttl ≤ now' → redisGet now' key (redisSet now key value ttl r) = None.
Proof.
  intros Hle. unfold redisGet, redisSet. cbn [rdb].
  rewrite lookup_insert_eq. rewrite bool_decide_eq_false_2; [done|lia].
Qed.

Lemma redisGet_redisSet_ne {Json} (now now' : Z) (key key' : string)
    (value : Json) (ttl : Z) (r : RedisCache Json) :
  key ≠ key' →
  redisGet now' key' (redisSet now key value ttl r) = redisGet now' key' r.
Proof.
  intros Hne. unfold redisGet, redisSet. cbn [rdb].
  by rewrite lookup_insert_ne.
Qed.

(** X9: [GetBalance] after [SetBalance] for the same user returns the
    balance that was set and leaves the cache as it is, whatever the store
    holds: for the in-memory cache at any later time, for the Redis cache
    before the time to live has passed, where the JSON text of the balance
    decodes to it. *)
Theorem SetBalance_GetBalance {Json D : Type} `{!Database D}
    (marshal : Balance → Json) (unmarshal : Json → option Balance)
    (order : RangeOrder) (now now' : Z) (store : D) (balance : Balance) (u : Z)
    (mem : InMemoryCache) (red : RedisCache Json) :
  unmarshal (marshal balance) = Some balance →
  now' < now + cacheEntryTTL →
  (∀ later, GetBalance order later store u (SetBalance now balance u mem)
            = Some (balance, SetBalance now balance u mem))
  ∧ GetBalance (Cache := RedisCache_Cache marshal unmarshal) order now' store u
      (SetBalance (Cache := RedisCache_Cache marshal unmarshal) now balance u red)
    = Some (balance,
            SetBalance (Cache := RedisCache_Cache marshal unmarshal)
              now balance u red).
Proof.
  intros Hround Hlt. split.
  - intros later. cbn [GetBalance SetBalance InMemoryCache_Cache].
    unfold InMemoryCache_GetBalance, InMemoryCache_SetBalance. cbn [entries].
    by rewrite lookup_insert_eq.
  - cbn [GetBalance SetBalance RedisCache_Cache].
    unfold RedisCache_GetBalance, RedisCache_SetBalance, setBalanceWithRdb.
    rewrite redisGet_redisSet by done. by rewrite Hround.
Qed.

(** The zero balance, set at instant 0 and read one second later. *)
Lemma SetBalance_GetBalance_witness :
  GetBalance (Cache := RedisCache_Cache id Some) map_to_list second oneCoffee 2
    (SetBalance (Cache := RedisCache_Cache id Some) 0 zeroBalance 2
       {| rdb := ∅ |})
  = Some (zeroBalance,
          SetBalance (Cache := RedisCache_Cache id Some) 0 zeroBalance 2
            {| rdb := ∅ |}).
Proof.
  refine (proj2 (SetBalance_GetBalance id Some map_to_list 0 second oneCoffee
                   zeroBalance 2 NewInMemoryCache {| rdb := ∅ |} _ _)).
  - reflexivity.
  - reflexivity.
Defined.

(** X10: [SetBalance] for one user does not change the balance that
    [GetBalance] returns for another user, in either cache. *)
Theorem SetBalance_other_user {Json D : Type} `{!Database D}
    (marshal : Balance → Json) (unmarshal : Json → option Balance)
    (order : RangeOrder) (now now' : Z) (store : D) (balance : Balance)
    (u v : Z) (mem : InMemoryCache) (red : RedisCache Json) :
  v ≠ u →
  fst <$> GetBalance order now' store v (SetBalance now balance u mem)
  = fst <$> GetBalance order now' store v mem
  ∧ fst <$> GetBalance (Cache := RedisCache_Cache marshal unmarshal)
              order now' store v
              (SetBalance (Cache := RedisCache_Cache marshal unmarshal)
                 now balance u red)
    = fst <$> GetBalance (Cache := RedisCache_Cache marshal unmarshal)
                order now' store v red.
Proof.
  intros Hne. split.
  - cbn [GetBalance SetBalance InMemoryCache_Cache].
    unfold InMemoryCache_GetBalance, InMemoryCache_SetBalance. cbn [entries].
    by rewrite lookup_insert_ne.
  - cbn [GetBalance SetBalance RedisCache_Cache].
    unfold RedisCache_GetBalance, RedisCache_SetBalance, setBalanceWithRdb.
    rewrite redisGet_redisSet_ne.
    2:{ intros Heq. by apply makeKey_inj in Heq. }
    destruct (redisGet now' (makeKey v) red) as [val|]; [|done].
    by destruct (unmarshal val).
Qed.

(** Setting the balance of user 1 leaves the one read for user 2. *)
Lemma SetBalance_other_user_witness :
  fst <$> GetBalance map_to_list 0 oneCoffee 2
            (SetBalance 0 zeroBalance 1 NewInMemoryCache)
  = fst <$> GetBalance map_to_list 0 oneCoffee 2 NewInMemoryCache.
Proof.
  refine (proj1 (SetBalance_other_user (Json := Balance) id Some map_to_list
                   0 0 oneCoffee zeroBalance 1 2 NewInMemoryCache
                   {| rdb := ∅ |} _)).
  done.
Defined.

(** X11: once the time to live has passed, the Redis cache no longer returns
    the balance that was set: [GetBalance] returns [CalculateBalance] of the
    expenses the store then holds and stores it for a new time to live. *)
Theorem RedisCache_expiry {Json D : Type} `{!Database D}
    (marshal : Balance → Json) (unmarshal : Json → option Balance)
    (order : RangeOrder) (now now' : Z) (store : D) (balance : Balance) (u : Z)
    (red : RedisCache Json) :
  now + cacheEntryTTL ≤ now' →
  ∃ red',
    GetBalance (Cache := RedisCache_Cache marshal unmarshal) order now' store u
      (SetBalance (Cache := RedisCache_Cache marshal unmarshal) now balance u red)
    = Some (CalculateBalance order (GetExpenses u store) u, red')
    ∧ rdb red' !! makeKey u
      = Some (marshal (CalculateBalance order (GetExpenses u store) u),
              now' + cacheEntryTTL)
    ∧ ∀ v, v ≠ u → rdb red' !! makeKey v = rdb red !! makeKey v.
Proof.
  intros Hle. eexists. split; [|split].
  - cbn [GetBalance SetBalance RedisCache_Cache].
    unfold RedisCache_GetBalance, RedisCache_SetBalance, setBalanceWithRdb.
    rewrite redisGet_redisSet_expired by done. reflexivity.
  - unfold setBalanceWithRdb, redisSet. cbn [rdb]. apply lookup_insert_eq.
  - intros v Hv. unfold setBalanceWithRdb, redisSet. cbn [rdb].
    rewrite !lookup_insert_ne; [done|..]; intros Heq; by apply makeKey_inj in Heq.
Qed.

(** The zero balance of user 2, set at instant 0, is recomputed after five
    seconds. *)
Lemma RedisCache_expiry_witness :
  ∃ red',
    GetBalance (Cache := RedisCache_Cache id Some) map_to_list cacheEntryTTL
      oneCoffee 2
      (SetBalance (Cache := RedisCache_Cache id Some) 0 zeroBalance 2
         {| rdb := ∅ |})
    = Some (CalculateBalance map_to_list (GetExpenses 2 oneCoffee) 2, red')
    ∧ rdb red' !! makeKey 2
      = Some (id (CalculateBalance map_to_list (GetExpenses 2 oneCoffee) 2),
              cacheEntryTTL + cacheEntryTTL)
    ∧ ∀ v, v ≠ 2 → rdb red' !! makeKey v
                   = rdb ({| rdb := ∅ |} : RedisCache Balance) !! makeKey v.
Proof.
  apply (RedisCache_expiry id Some map_to_list 0 cacheEntryTTL oneCoffee
           zeroBalance 2 {| rdb := ∅ |}).
  by vm_compute.
Defined.

(** ** Further properties of the endpoints *)

Section endpoints.
Context {D C : Type} `{!Database D, !Cache C}.
Variable parseRFC3339 : string → option Z.

(** A request whose body passes every check is stored and written through,
    whatever its method. *)
Lemma postExpenses_accepted (order : RangeOrder) (now : Z) (w : ResponseWriter)
    (r : Request) (u : Z) (api : API D C) (e : createExpenseRequest)
    (createdAt : Z) :
  Body r = Some e →
  req_Description e ≠ "" →
  (0 < req_Amount e)%Qc →
  parseRFC3339 (req_CreatedAt e) = Some createdAt →
  req_Users e ≠ [] →
  u ∉ req_Users e →
  NoDup (req_Users e) →
  postExpenses parseRFC3339 order now w r u api
  = (WriteHeader StatusCreated
       (if bool_decide (Method r ≠ "POST")
        then writeError w StatusMethodNotAllowed "method not allowed" else w),
     {| db := CreateExpense
                {| ExpenseID := 0; OwnerID := u;
                   Description := req_Description e; Amount := req_Amount e;
                   CreatedAt := createdAt; Users := req_Users e |} (db api);
        cache := SetBalance now
                   (CalculateBalance order
                      (GetExpenses u
                         (CreateExpense
                            {| ExpenseID := 0; OwnerID := u;
                               Description := req_Description e;
                               Amount := req_Amount e;
                               CreatedAt := createdAt; Users := req_Users e |}
                            (db api))) u)
                   u (cache api) |}).
Proof.
  intros Hb Hd Ha Ht Hne Hself Hnd. unfold postExpenses.
  rewrite Hb, Ht.
  rewrite (bool_decide_eq_false_2 (req_Description e = "")) by done.
  rewrite decide_False by (by apply Qclt_not_le).
  rewrite (bool_decide_eq_false_2 (length (req_Users e) < 1)%nat).
  2:{ destruct (req_Users e); [done|]. cbn [length]. lia. }
  by rewrite (proj2 (checkUsers_empty_None u (req_Users e)) (conj Hself Hnd)).
Qed.

(** The cache after a request is the cache before it, or that cache with the
    balance of the submitter set. *)
Lemma postExpenses_cache (order : RangeOrder) (now : Z) (w : ResponseWriter)
    (r : Request) (u : Z) (api : API D C) :
  cache (postExpenses parseRFC3339 order now w r u api).2 = cache api
  ∨ ∃ balance,
      cache (postExpenses parseRFC3339 order now w r u api).2
      = SetBalance now balance u (cache api).
Proof.
  unfold postExpenses.
  destruct (Body r) as [e|]; [|by left].
  case_bool_decide; [by left|].
  destruct (decide (req_Amount e ≤ 0)%Qc); [by left|].
  destruct (parseRFC3339 (req_CreatedAt e)); [|by left].
  case_bool_decide; [by left|].
  destruct (checkUsers u ∅ (req_Users e)); [by left|].
  right. by eexists.
Qed.

(** X12: [postExpenses] does not stop at a method other than POST: a request
    whose body passes every check is still stored and its balance written to
    the cache, while the response carries the status 405 and the message of
    the method check. *)
Theorem postExpenses_wrong_method (order : RangeOrder) (now : Z)
    (w : ResponseWriter) (r : Request) (u : Z) (api : API D C)
    (e : createExpenseRequest) (createdAt : Z) :
  Method r ≠ "POST" →
  Code w = None →
  Body r = Some e →
  req_Description e ≠ "" →
  (0 < req_Amount e)%Qc →
  parseRFC3339 (req_CreatedAt e) = Some createdAt →
  req_Users e ≠ [] →
  u ∉ req_Users e →
  NoDup (req_Users e) →
  let expense :=
    {| ExpenseID := 0; OwnerID := u; Description := req_Description e;
       Amount := req_Amount e; CreatedAt := createdAt; Users := req_Users e |} in
  let out := postExpenses parseRFC3339 order now w r u api in
  Code out.1 = Some StatusMethodNotAllowed
  ∧ Written out.1 = Written w ++ ["method not allowed"]
  ∧ db out.2 = CreateExpense expense (db api)
  ∧ cache out.2
    = SetBalance now
        (CalculateBalance order (GetExpenses u (CreateExpense expense (db api))) u)
        u (cache api).
Proof.
  intros Hm Hw Hb Hd Ha Ht Hne Hself Hnd expense out. unfold out.
  rewrite (postExpenses_accepted order now w r u api e createdAt) by done.
  rewrite bool_decide_eq_true_2 by done.
  cbn [fst snd db cache]. unfold WriteHeader, writeError, WriteHeader.
  cbn [Code Written]. by rewrite Hw.
Qed.

End endpoints.

(** The request of the endpoint test, sent by GET. *)
Lemma postExpenses_wrong_method_witness :
  Code (postExpenses (λ _, Some 0) map_to_list 0 NewRecorder
          {| Method := "GET"; Body := Body foodRequest |} 1
          {| db := NewInMemoryDatabase; cache := NewInMemoryCache |}).1
  = Some StatusMethodNotAllowed.
Proof.
  refine (proj1
    (postExpenses_wrong_method (λ _, Some 0) map_to_list 0 NewRecorder
       {| Method := "GET"; Body := Body foodRequest |} 1
       {| db := NewInMemoryDatabase; cache := NewInMemoryCache |}
       {| req_Description := "Food"; req_Amount := float64 42;
          req_CreatedAt := "2021-01-01T15:04:05Z"; req_Users := [2; 3] |}
       0 _ _ _ _ _ _ _ _ _)).
  - done.
  - reflexivity.
  - reflexivity.
  - done.
  - by vm_compute.
  - reflexivity.
  - done.
  - by_evaluation.
  - by_evaluation.
Defined.

Lemma writeError_writeJSON (w : ResponseWriter) (code : Z) (message : string) :
  writeError w code message = writeJSON (WriteHeader code w) message.
Proof.
  unfold writeError, writeJSON, WriteHeader. cbn [Code Written].
  by destruct (Code w).
Qed.

(** X13: a balance query of the submitter that follows a valid request to
    create an expense answers 200 with the balance computed from the store as
    it is after the request: with the in-memory cache at any time, with the
    Redis cache before the entry expires, where the JSON text of the balance
    decodes to it. *)
Theorem postExpenses_getBalance {Json D : Type} `{!Database D}
    (marshal : Balance → Json) (unmarshal : Json → option Balance)
    (encodeBalance : Balance → string) (parseRFC3339 : string → option Z)
    (order order' : RangeOrder) (now now' : Z) (w w' : ResponseWriter)
    (r r' : Request) (u : Z) (e : createExpenseRequest) (createdAt : Z)
    (store : D) (mem : InMemoryCache) (red : RedisCache Json) :
  Body r = Some e →
  req_Description e ≠ "" →
  (0 < req_Amount e)%Qc →
  parseRFC3339 (req_CreatedAt e) = Some createdAt →
  req_Users e ≠ [] →
  u ∉ req_Users e →
  NoDup (req_Users e) →
  Method r' = "GET" →
  Code w' = None →
  now' < now + cacheEntryTTL →
  let out := postExpenses parseRFC3339 order now w r u
               {| db := store; cache := mem |} in
  let out' := postExpenses (Cache0 := RedisCache_Cache marshal unmarshal)
                parseRFC3339 order now w r u {| db := store; cache := red |} in
  let balance := CalculateBalance order (GetExpenses u (db out.2)) u in
  db out'.2 = db out.2
  ∧ getBalance encodeBalance order' now' w' r' u out.2
    = Some ({| Code := Some StatusOK;
               Written := Written w' ++ [encodeBalance balance] |}, out.2)
  ∧ (unmarshal (marshal balance) = Some balance →
     getBalance (Cache0 := RedisCache_Cache marshal unmarshal)
       encodeBalance order' now' w' r' u out'.2
     = Some ({| Code := Some StatusOK;
                Written := Written w' ++ [encodeBalance balance] |}, out'.2)).
Proof.
  intros Hb Hd Ha Ht Hne Hself Hnd Hm' Hw' Hlt out out' balance.
  unfold balance, out, out'.
  rewrite !(postExpenses_accepted parseRFC3339 order now w r u _ e createdAt)
    by done.
  cbn [fst snd db cache]. split; [done|]. unfold getBalance. rewrite Hm'.
  rewrite (bool_decide_eq_false_2 ("GET" ≠ "GET")) by (intros H; by apply H).
  cbn [db cache]. split.
  - cbn [GetBalance SetBalance InMemoryCache_Cache].
    unfold InMemoryCache_GetBalance, InMemoryCache_SetBalance. cbn [entries].
    rewrite lookup_insert_eq. cbn [default from_option id].
    unfold writeJSON. by rewrite Hw'.
  - intros Hround. cbn [GetBalance SetBalance RedisCache_Cache].
    unfold RedisCache_GetBalance, RedisCache_SetBalance, setBalanceWithRdb.
    rewrite redisGet_redisSet by done. rewrite Hround.
    unfold writeJSON. by rewrite Hw'.
Qed.

(** The endpoint test: user 1 posts the meal and reads a balance. *)
Lemma postExpenses_getBalance_witness :
  getBalance (λ _, "") map_to_list 0 NewRecorder
    {| Method := "GET"; Body := None |} 1
    (postExpenses (λ _, Some 0) map_to_list 0 NewRecorder foodRequest 1
       {| db := NewInMemoryDatabase; cache := NewInMemoryCache |}).2
  = Some ({| Code := Some StatusOK; Written := Written NewRecorder ++ [""] |},
          (postExpenses (λ _, Some 0) map_to_list 0 NewRecorder foodRequest 1
             {| db := NewInMemoryDatabase; cache := NewInMemoryCache |}).2).
Proof.
  refine (proj1 (proj2
    (postExpenses_getBalance (Json := Balance) id Some (λ _, "") (λ _, Some 0)
       map_to_list map_to_list 0 0 NewRecorder NewRecorder foodRequest
       {| Method := "GET"; Body := None |} 1
       {| req_Description := "Food"; req_Amount := float64 42;
          req_CreatedAt := "2021-01-01T15:04:05Z"; req_Users := [2; 3] |}
       0 NewInMemoryDatabase NewInMemoryCache {| rdb := ∅ |}
       _ _ _ _ _ _ _ _ _ _))).
  - reflexivity.
  - done.
  - by vm_compute.
  - reflexivity.
  - done.
  - by_evaluation.
  - by_evaluation.
  - reflexivity.
  - reflexivity.
  - reflexivity.
Defined.

(** X14: a request to create an expense never refreshes what a balance query
    returns for a user other than the submitter, be that user a participant
    of the new expense or not: with the in-memory cache the query writes what
    it wrote before the request, and so it does with the Redis cache where
    the entry of that user has not expired. *)
Theorem postExpenses_leaves_others_stale {Json D : Type} `{!Database D}
    (marshal : Balance → Json) (unmarshal : Json → option Balance)
    (encodeBalance : Balance → string) (parseRFC3339 : string → option Z)
    (order order' : RangeOrder) (now now' : Z) (w w' : ResponseWriter)
    (r r' : Request) (u v : Z)
    (store : D) (mem : InMemoryCache) (red : RedisCache Json) :
  v ≠ u →
  fst <$> getBalance encodeBalance order' now' w' r' v
            (postExpenses parseRFC3339 order now w r u
               {| db := store; cache := mem |}).2
  = fst <$> getBalance encodeBalance order' now' w' r' v
              {| db := store; cache := mem |}
  ∧ (is_Some (redisGet now' (makeKey v) red) →
     fst <$> getBalance (Cache0 := RedisCache_Cache marshal unmarshal)
               encodeBalance order' now' w' r' v
               (postExpenses (Cache0 := RedisCache_Cache marshal unmarshal)
                  parseRFC3339 order now w r u
                  {| db := store; cache := red |}).2
     = fst <$> getBalance (Cache0 := RedisCache_Cache marshal unmarshal)
                 encodeBalance order' now' w' r' v
                 {| db := store; cache := red |}).
Proof.
  intros Hne. split.
  - unfold getBalance.
    destruct (postExpenses_cache parseRFC3339 order now w r u
                {| db := store; cache := mem |}) as [->|[b ->]]; [done|].
    cbn [GetBalance SetBalance InMemoryCache_Cache cache].
    unfold InMemoryCache_GetBalance, InMemoryCache_SetBalance. cbn [entries].
    by rewrite lookup_insert_ne.
  - intros [val Hval]. unfold getBalance.
    destruct (postExpenses_cache (Cache0 := RedisCache_Cache marshal unmarshal)
                parseRFC3339 order now w r u
                {| db := store; cache := red |}) as [->|[b ->]].
    + cbn [GetBalance RedisCache_Cache cache]. unfold RedisCache_GetBalance.
      rewrite Hval. by destruct (unmarshal val).
    + cbn [GetBalance SetBalance RedisCache_Cache cache].
      unfold RedisCache_GetBalance, RedisCache_SetBalance, setBalanceWithRdb.
      rewrite redisGet_redisSet_ne.
      2:{ intros Heq. by apply makeKey_inj in Heq. }
      rewrite Hval. by destruct (unmarshal val).
Qed.

(** After the meal of user 1 the in-memory cache still answers user 2 with
    what it answered before. *)
Lemma postExpenses_leaves_others_stale_witness :
  fst <$> getBalance (λ _, "") map_to_list 0 NewRecorder
            {| Method := "GET"; Body := None |} 2
            (postExpenses (λ _, Some 0) map_to_list 0 NewRecorder foodRequest 1
               {| db := NewInMemoryDatabase; cache := NewInMemoryCache |}).2
  = fst <$> getBalance (λ _, "") map_to_list 0 NewRecorder
              {| Method := "GET"; Body := None |} 2
              {| db := NewInMemoryDatabase; cache := NewInMemoryCache |}.
Proof.
  refine (proj1
    (postExpenses_leaves_others_stale (Json := Balance) id Some (λ _, "")
       (λ _, Some 0) map_to_list map_to_list 0 0 NewRecorder NewRecorder
       foodRequest {| Method := "GET"; Body := None |} 1 2
       NewInMemoryDatabase NewInMemoryCache {| rdb := ∅ |} _)).
  done.
Defined.

(** *** The users endpoint *)

(** X15: the length check of [isEmailValid] never rejects an address, since
    no length is below 3 and above 254: the result is the one of the regular
    expression alone, so an address longer than 254 bytes that matches is
    valid. *)
Theorem isEmailValid_is_MatchString (MatchString : string → bool) (e : string) :
  isEmailValid MatchString e = MatchString e.
Proof.
  unfold isEmailValid.
  destruct (decide (String.length e < 3)%nat) as [Hlt|Hge].
  - rewrite (bool_decide_eq_false_2 (254 < String.length e)%nat) by lia.
    by rewrite andb_false_r.
  - by rewrite (bool_decide_eq_false_2 (String.length e < 3)%nat) by done.
Qed.

Lemma API_eta {D C : Type} (api : API D C) :
  {| db := db api; cache := cache api |} = api.
Proof. by destruct api. Qed.

Lemma User_fmap_id (l : list User) :
  (λ u, {| User_ID := User_ID u; User_Email := User_Email u |}) <$> l = l.
Proof.
  induction l as [|[id email] l IH]; [done|]. by rewrite fmap_cons, IH.
Qed.

(** X16: the users endpoint on an in-memory database always answers, and it
    changes nothing but the users of the database, and those only for a
    POST whose password has at least 6 bytes and whose email is valid and not
    taken: then the user is appended. *)
Theorem users_handler_state {C : Type} `{!Cache C}
    (encodeUser : Z → string → string) (encodeUsers : list User → string)
    (MatchString : string → bool)
    (w : ResponseWriter) (r : UsersRequest) (userID : Z)
    (api : API InMemoryDatabase C) :
  ∃ w' api',
    users_handler encodeUser encodeUsers MatchString w r userID api
    = Some (w', api')
    ∧ cache api' = cache api
    ∧ expenses (db api') = expenses (db api)
    ∧ (api' = api
       ∨ ∃ u, users_Method r = "POST" ∧ users_Body r = Some u
              ∧ (6 ≤ String.length (req_Password u))%nat
              ∧ MatchString (req_Email u) = true
              ∧ (req_Email u ∉ Email <$> users (db api))
              ∧ Email <$> users (db api')
                = (Email <$> users (db api)) ++ [req_Email u]).
Proof.
  unfold users_handler.
  case_bool_decide as Hget; [eexists _, _; split; [done|]; by auto|].
  case_bool_decide as Hpost; [|eexists _, _; split; [done|]; by auto].
  unfold postUsers.
  destruct (users_Body r) as [u|] eqn:Hbody;
    [|eexists _, _; split; [done|]; by auto].
  case_bool_decide as Hpw; [eexists _, _; split; [done|]; by auto|].
  replace (isEmailValid MatchString (req_Email u))
    with (MatchString (req_Email u)).
  2:{ unfold isEmailValid.
      destruct (decide (String.length (req_Email u) < 3)%nat).
      - rewrite (bool_decide_eq_false_2 (254 < _)%nat) by lia.
        by rewrite andb_false_r.
      - by rewrite (bool_decide_eq_false_2 (_ < 3)%nat) by done. }
  destruct (MatchString (req_Email u)) eqn:Hmatch; cbn [negb];
    [|eexists _, _; split; [done|]; by auto].
  destruct (decide (req_Email u ∈ Email <$> users (db api))) as [Hin|Hout].
  - rewrite CreateUser_taken by done. cbn [fst snd].
    rewrite API_eta. eexists _, _; split; [done|]; by auto.
  - rewrite CreateUser_fresh by done. cbn [fst snd].
    eexists _, _. split; [done|]. cbn [db cache users expenses].
    split; [done|]. split; [done|]. right. exists u.
    rewrite fmap_app. repeat split; try done. lia.
Qed.

Lemma isEmailValid_matches (MatchString : string → bool) (e : string) :
  MatchString e = true → isEmailValid MatchString e = true.
Proof.
  intros Hm. unfold isEmailValid.
  destruct (decide (String.length e < 3)%nat).
  - rewrite (bool_decide_eq_false_2 (254 < _)%nat) by lia.
    by rewrite andb_false_r.
  - by rewrite (bool_decide_eq_false_2 (_ < 3)%nat) by done.
Qed.

(** X17: [postUsers] does not stop after the answer to a duplicate: for an
    email that is taken the response carries the status 409 and the error
    message, followed by the JSON text of a user with the id 0 and that email;
    the database and the cache are as before. *)
Theorem postUsers_duplicate {C : Type} `{!Cache C}
    (encodeUser : Z → string → string) (MatchString : string → bool)
    (w : ResponseWriter) (r : UsersRequest) (u : createUserRequest)
    (api : API InMemoryDatabase C) :
  Code w = None →
  users_Body r = Some u →
  (6 ≤ String.length (req_Password u))%nat →
  MatchString (req_Email u) = true →
  req_Email u ∈ Email <$> users (db api) →
  postUsers encodeUser MatchString w r api
  = Some ({| Code := Some StatusConflict;
             Written := Written w
                        ++ ["a user with that email already exists";
                            encodeUser 0 (req_Email u)] |},
          api).
Proof.
  intros Hw Hbody Hpw Hmatch Hin. unfold postUsers. rewrite Hbody.
  rewrite bool_decide_eq_false_2 by lia.
  rewrite isEmailValid_matches by done. cbn [negb].
  rewrite CreateUser_taken by done. cbn [fst snd]. rewrite API_eta.
  unfold writeJSON, writeError, WriteHeader. cbn [Code Written]. rewrite Hw.
  by rewrite <- app_assoc.
Qed.

(** The second registration of one address. *)
Lemma postUsers_duplicate_witness :
  postUsers (λ _ email, email) (λ _, true) NewRecorder
    {| users_Method := "POST";
       users_Body := Some {| req_Email := "test1@getstream.io";
                             req_Password := "secret" |} |}
    {| db := (CreateUser "test1@getstream.io" "secret" NewInMemoryDatabase).2;
       cache := NewInMemoryCache |}
  = Some ({| Code := Some StatusConflict;
             Written := Written NewRecorder
                        ++ ["a user with that email already exists";
                            "test1@getstream.io"] |},
          {| db := (CreateUser "test1@getstream.io" "secret"
                      NewInMemoryDatabase).2;
             cache := NewInMemoryCache |}).
Proof.
  apply (postUsers_duplicate (λ _ email, email) (λ _, true) NewRecorder
           {| users_Method := "POST";
              users_Body := Some {| req_Email := "test1@getstream.io";
                                    req_Password := "secret" |} |}
           {| req_Email := "test1@getstream.io"; req_Password := "secret" |}).
  - reflexivity.
  - reflexivity.
  - cbn. lia.
  - reflexivity.
  - by_evaluation.
Defined.

(** X18: a registration with a password of at least 6 bytes and a valid
    email that is not taken answers 200 with the JSON text of the new user,
    whose id is the number of users plus one; a listing of the users that
    follows holds the users listed before and then the new user under that
    id. *)
Theorem postUsers_getUsers {C : Type} `{!Cache C}
    (encodeUser : Z → string → string) (encodeUsers : list User → string)
    (MatchString : string → bool)
    (w w' : ResponseWriter) (r : UsersRequest) (u : createUserRequest)
    (api : API InMemoryDatabase C) :
  Code w = None →
  users_Body r = Some u →
  (6 ≤ String.length (req_Password u))%nat →
  MatchString (req_Email u) = true →
  req_Email u ∉ Email <$> users (db api) →
  let id := Z.of_nat (length (users (db api))) + 1 in
  ∃ api',
    postUsers encodeUser MatchString w r api
    = Some ({| Code := Some StatusOK;
               Written := Written w ++ [encodeUser id (req_Email u)] |}, api')
    ∧ getUsers encodeUsers w' api'
      = writeJSON w'
          (encodeUsers
             (GetUsers (db api)
              ++ [{| User_ID := id; User_Email := req_Email u |}])).
Proof.
  intros Hw Hbody Hpw Hmatch Hout id. unfold postUsers. rewrite Hbody.
  rewrite bool_decide_eq_false_2 by lia.
  rewrite isEmailValid_matches by done. cbn [negb].
  rewrite CreateUser_fresh by done. cbn [fst snd].
  eexists. split.
  - unfold writeJSON. by rewrite Hw.
  - unfold getUsers. cbn [db]. by rewrite User_fmap_id, GetUsers_snoc.
Qed.

(** The registration of the users test: the second user gets the id 2. *)
Lemma postUsers_getUsers_witness :
  ∃ api',
    postUsers (λ _ email, email) (λ _, true) NewRecorder
      {| users_Method := "POST";
         users_Body := Some {| req_Email := "test@getstream.io";
                               req_Password := "secret" |} |}
      {| db := (CreateUser "test1@getstream.io" "secret" NewInMemoryDatabase).2;
         cache := NewInMemoryCache |}
    = Some ({| Code := Some StatusOK;
               Written := Written NewRecorder ++ ["test@getstream.io"] |}, api')
    ∧ getUsers (λ l, "") NewRecorder api'
      = writeJSON NewRecorder
          ((λ l : list User, "")
             (GetUsers (CreateUser "test1@getstream.io" "secret"
                          NewInMemoryDatabase).2
              ++ [{| User_ID := 2; User_Email := "test@getstream.io" |}])).
Proof.
  apply (postUsers_getUsers (λ _ email, email) (λ _, "") (λ _, true)
           NewRecorder NewRecorder
           {| users_Method := "POST";
              users_Body := Some {| req_Email := "test@getstream.io";
                                    req_Password := "secret" |} |}
           {| req_Email := "test@getstream.io"; req_Password := "secret" |}
           {| db := (CreateUser "test1@getstream.io" "secret"
                       NewInMemoryDatabase).2;
              cache := NewInMemoryCache |}).
  - reflexivity.
  - reflexivity.
  - cbn. lia.
  - reflexivity.
  - by_evaluation.
Defined.

(** *** Authentication *)

(** X19: behind [requireAuth] the expenses endpoint changes nothing for a
    request without the cookie or with a token that does not verify, and
    answers 401; and every expense that it adds to the store is owned by the
    user of the verified token, whatever the body of the request says. *)
Theorem requireAuth_postExpenses {C : Type} `{!Cache C}
    (VerifyToken : string → option Z) (parseRFC3339 : string → option Z)
    (order : RangeOrder) (now : Z) (w : ResponseWriter)
    (cookie : option string) (r : Request) (api : API InMemoryDatabase C) :
  ∃ w' api',
    requireAuth VerifyToken
      (λ w r userID api, Some (postExpenses parseRFC3339 order now w r userID api))
      w cookie r api
    = Some (w', api')
    ∧ (cookie ≫= VerifyToken = None →
       api' = api ∧ w' = writeError w StatusUnauthorized "authorization failed")
    ∧ (expenses (db api') = expenses (db api)
       ∨ ∃ token userID stored,
           cookie = Some token ∧ VerifyToken token = Some userID
           ∧ expenses (db api') = expenses (db api) ++ [stored]
           ∧ OwnerID stored = userID).
Proof.
  unfold requireAuth. destruct cookie as [token|]; cbn [mbind option_bind].
  2:{ eexists _, _. split; [done|]. split; [done|]. by left. }
  destruct (VerifyToken token) as [userID|] eqn:Hverify.
  2:{ eexists _, _. split; [done|]. split; [done|]. by left. }
  eexists _, _. split; [by rewrite <- surjective_pairing|].
  split; [done|].
  destruct (postExpenses_store parseRFC3339 order now w r userID api)
    as [Heq|(e & stored & _ & Heq & Ho & _)]; [by left|].
  right. by exists token, userID, stored.
Qed.

(** ** The amounts of the entries *)






